(** * Essayage: response classification, data-URL codec, error messages,
      crop geometry and pose navigation

    A shallow embedding of the TypeScript sources

      - [src/services/geminiService.ts]  (module [GeminiService])
      - [src/lib/utils.ts]               (module [Utils])
      - [src/components/Canvas.tsx]      (module [Canvas])

    together with the JavaScript built-ins those sources call (module [JS]).

    Conventions.  A JavaScript string is modelled by the sequence of bytes of
    its UTF-8 encoding, as a [string] of the standard library.  The
    characters the sources look for ([,], [:], [;], ASCII words) are single
    bytes that never occur inside a multi-byte sequence, so splitting,
    searching and concatenation commute with the encoding; the line
    terminators and white space beyond ASCII are recognised by their byte
    sequences.  A
    JavaScript number is a binary64 float ([PrimFloat.float]).  A value that
    may be [undefined] is an [option].  A function that may [throw] returns
    a [Completion]. *)

From Stdlib Require Import Bool Ascii String List ZArith Lia.
From Stdlib Require Import Floats.PrimFloat Floats.FloatOps Floats.SpecFloat.
Import ListNotations.

Local Open Scope string_scope.
Local Open Scope list_scope.

#[local] Set Warnings "-register-all,-inexact-float".

(* ================================================================== *)
(** * Part I: the embedding *)
(* ================================================================== *)

(** ** JavaScript values and built-ins used by the sources *)

Module JS.

(** A value of static type [unknown], as far as [getFriendlyErrorMessage]
    and [catch] can tell values apart: an [Error] object with its
    [message], a primitive string, or any other value with its truthiness
    and the result of [String(v)]. *)
Inductive Unknown : Type :=
| ErrorObject (message : string)
| StringValue (s : string)
| OtherValue (truthy : bool) (toStr : string).

(** The two ways a call completes: [return a] or [throw e]. *)
Inductive Completion (A : Type) : Type :=
| Return (a : A)
| Throw (e : Unknown).

Arguments Return {A} a.
Arguments Throw {A} e.

Definition bind {A B : Type} (c : Completion A) (k : A -> Completion B) : Completion B :=
  match c with
  | Return a => k a
  | Throw e => Throw e
  end.

(** [throw new Error(msg)] *)
Definition throwError {A : Type} (msg : string) : Completion A :=
  Throw (ErrorObject msg).

Definition isThrow {A : Type} (c : Completion A) : bool :=
  match c with
  | Return _ => false
  | Throw _ => true
  end.

(** Truthiness of a string: every string but the empty one. *)
Definition truthy (s : string) : bool :=
  match s with
  | EmptyString => false
  | String _ _ => true
  end.

(** Truthiness of [string | undefined]. *)
Definition truthyOpt (o : option string) : bool :=
  match o with
  | Some s => truthy s
  | None => false
  end.

(** [o || dflt] on [string | undefined]. *)
Definition orElse (o : option string) (dflt : string) : string :=
  match o with
  | Some s => if truthy s then s else dflt
  | None => dflt
  end.

(** Single characters the sources and the regular expression look at. *)
Definition LF : ascii := "010"%char.
Definition CR : ascii := "013"%char.
Definition TAB : ascii := "009"%char.
Definition comma : ascii := ","%char.
Definition colon : ascii := ":"%char.
Definition semicolon : ascii := ";"%char.
Definition dquote : ascii := "034"%char.
Definition backslash : ascii := "092"%char.

(** [str c] is the one-character string. *)
Definition str (c : ascii) : string := String c EmptyString.

(** Does the character occur in the string? *)
Fixpoint containsChar (c : ascii) (s : string) : bool :=
  match s with
  | EmptyString => false
  | String a rest => Ascii.eqb a c || containsChar c rest
  end.

(** The ECMAScript line terminators are U+000A, U+000D, U+2028 and U+2029;
    the last two are E2 80 A8 and E2 80 A9 in UTF-8.  [isLineTerminatorAt s]
    says that [s] starts with one. *)
Definition isLineTerminatorAt (s : string) : bool :=
  match s with
  | EmptyString => false
  | String c rest =>
      Ascii.eqb c LF || Ascii.eqb c CR ||
      match rest with
      | String c2 (String c3 _) =>
          Ascii.eqb c "226"%char && Ascii.eqb c2 "128"%char &&
          (Ascii.eqb c3 "168"%char || Ascii.eqb c3 "169"%char)
      | _ => false
      end
  end.

Fixpoint hasLineTerminator (s : string) : bool :=
  match s with
  | EmptyString => false
  | String _ rest => isLineTerminatorAt s || hasLineTerminator rest
  end.

(** [s.split(sep)] for a non-empty separator.  The result is never empty;
    its head is the segment before the first occurrence of [sep].  [skip]
    counts the characters of a separator just matched that are still to be
    passed over. *)
Fixpoint splitFrom (sep : string) (skip : nat) (s : string) : list string :=
  match s with
  | EmptyString => [EmptyString]
  | String c rest =>
      match skip with
      | S k => splitFrom sep k rest
      | O =>
          if prefix sep s
          then EmptyString :: splitFrom sep (String.length sep - 1) rest
          else match splitFrom sep O rest with
               | seg :: segs => String c seg :: segs
               | [] => [str c]
               end
      end
  end.

Definition split (sep : string) (s : string) : list string :=
  splitFrom sep O s.

(** [arr[i]] on an array of strings: [undefined] out of range. *)
Definition at_ (arr : list string) (i : nat) : option string :=
  nth_error arr i.

(** [s.includes(needle)] *)
Fixpoint includes (needle : string) (s : string) : bool :=
  prefix needle s ||
  match s with
  | EmptyString => false
  | String _ rest => includes needle rest
  end.

(** The regular expression [/:(.*?);/] of [dataUrlToParts].

    [lazyDotSemi s] runs the tail [(.*?);] of the expression on [s]: the
    lazy group takes the fewest characters, so it stops at the first [;];
    [.] matches any character but a line terminator, so the attempt
    fails when a line terminator comes before that [;].  The result is the
    text captured by the group. *)
Fixpoint lazyDotSemi (s : string) : option string :=
  match s with
  | EmptyString => None
  | String c rest =>
      if Ascii.eqb c semicolon then Some EmptyString
      else if isLineTerminatorAt s then None
      else option_map (String c) (lazyDotSemi rest)
  end.

(** [h.match(/:(.*?);/)]: the match attempts start at each [:] from left to
    right and the first that succeeds wins.  Only capture group 1 of the
    match array is returned, [None] standing for the [null] of no match. *)
Fixpoint matchMime (h : string) : option string :=
  match h with
  | EmptyString => None
  | String c rest =>
      if Ascii.eqb c colon
      then match lazyDotSemi rest with
           | Some g => Some g
           | None => matchMime rest
           end
      else matchMime rest
  end.

End JS.

(** [s.trim()] removes the white space and line terminators of ECMAScript
    at both ends: U+0009 to U+000D, U+0020, U+00A0, U+1680, U+2000 to
    U+200A, U+2028, U+2029, U+202F, U+205F, U+3000 and U+FEFF.
    [whiteSpaceAt s] is the number of bytes of such a code point at the
    start of [s], and 0 when there is none. *)
Module JSTrim.

Local Open Scope nat_scope.

Definition byte (c : ascii) : nat := nat_of_ascii c.

Definition isWhiteSpace3 (b1 b2 b3 : nat) : bool :=
  ((b1 =? 225) && (b2 =? 154) && (b3 =? 128)) ||
  ((b1 =? 226) && (b2 =? 128) &&
     ((b3 <=? 138) && (128 <=? b3) || (b3 =? 168) || (b3 =? 169) || (b3 =? 175))) ||
  ((b1 =? 226) && (b2 =? 129) && (b3 =? 159)) ||
  ((b1 =? 227) && (b2 =? 128) && (b3 =? 128)) ||
  ((b1 =? 239) && (b2 =? 187) && (b3 =? 191)).

Definition whiteSpaceAt (s : string) : nat :=
  match s with
  | EmptyString => 0
  | String c1 rest1 =>
      if ((9 <=? byte c1) && (byte c1 <=? 13)) || (byte c1 =? 32) then 1
      else match rest1 with
           | EmptyString => 0
           | String c2 rest2 =>
               if (byte c1 =? 194) && (byte c2 =? 160) then 2
               else match rest2 with
                    | EmptyString => 0
                    | String c3 _ =>
                        if isWhiteSpace3 (byte c1) (byte c2) (byte c3) then 3 else 0
                    end
           end
  end.

(** The same test on the reversed string, for the end of the text. *)
Definition whiteSpaceAtEnd (r : list ascii) : nat :=
  match r with
  | [] => 0
  | c1 :: rest1 =>
      if ((9 <=? byte c1) && (byte c1 <=? 13)) || (byte c1 =? 32) then 1
      else match rest1 with
           | [] => 0
           | c2 :: rest2 =>
               if (byte c2 =? 194) && (byte c1 =? 160) then 2
               else match rest2 with
                    | [] => 0
                    | c3 :: _ =>
                        if isWhiteSpace3 (byte c3) (byte c2) (byte c1) then 3 else 0
                    end
           end
  end.

Fixpoint dropString (n : nat) (s : string) : string :=
  match n, s with
  | S k, String _ rest => dropString k rest
  | _, _ => s
  end.

Fixpoint trimStartFuel (fuel : nat) (s : string) : string :=
  match fuel with
  | O => s
  | S f =>
      match whiteSpaceAt s with
      | O => s
      | n => trimStartFuel f (dropString n s)
      end
  end.

Fixpoint trimEndFuel (fuel : nat) (r : list ascii) : list ascii :=
  match fuel with
  | O => r
  | S f =>
      match whiteSpaceAtEnd r with
      | O => r
      | n => trimEndFuel f (skipn n r)
      end
  end.

Definition trimStart (s : string) : string :=
  trimStartFuel (String.length s) s.

Definition trimEnd (s : string) : string :=
  let r := rev (list_ascii_of_string s) in
  string_of_list_ascii (rev (trimEndFuel (List.length r) r)).

Definition trim (s : string) : string := trimEnd (trimStart s).

End JSTrim.

(** ** [src/services/geminiService.ts] *)

Module GeminiService.
Import JS.

(** *** The request and response shapes of the generative API *)

(** Modelled from the spec: the types [GenerateContentResponse],
    [Candidate], [Content], [Part] and [Blob] and the request parameters
    are declared by the SDK package, which is not part of the repository.
    The shapes are those of the external interface: a request is a model
    identifier and an ordered list of parts, each an inline image
    [{mimeType, data}] or a text; a response has an optional prompt
    feedback (block reason and optional message), an optional ordered list
    of candidates, each with optional content, optional parts and an
    optional finish reason, and an optional aggregate text.  Reasons are
    strings. *)
Record Blob : Type := mkBlob { mimeType : string; data : string }.

Record Part : Type := mkPart { inlineData : option Blob; text : option string }.

Record Content : Type := mkContent { parts : option (list Part) }.

Record Candidate : Type := mkCandidate {
  content : option Content;
  finishReason : option string
}.

Record PromptFeedback : Type := mkPromptFeedback {
  blockReason : option string;
  blockReasonMessage : option string
}.

Record GenerateContentResponse : Type := mkResponse {
  promptFeedback : option PromptFeedback;
  candidates : option (list Candidate);
  responseText : option string
}.

Record GenerateContentParameters : Type := mkParameters {
  requestModel : string;
  contents : Content
}.

(** A [File] is a handle; what reading it gives is up to the [World]. *)
Record File : Type := mkFile { fileName : string; fileType : string }.

(** The part literals [{ inlineData: { mimeType, data } }] and [{ text }]. *)
Definition inlinePart (b : Blob) : Part :=
  {| inlineData := Some b; text := None |}.

Definition textPart (t : string) : Part :=
  {| inlineData := None; text := Some t |}.

(** *** Promises

    An [async] function is a tree of the two awaited operations of this
    file: reading a file with a [FileReader] and calling
    [ai.models.generateContent].  A rejected awaited promise rejects the
    whole function, as do synchronous throws: the sources have no
    [try]/[catch] here. *)
Inductive Async (A : Type) : Type :=
| Settled (c : Completion A)
| ReadAsDataURL (file : File) (k : string -> Async A)
| GenerateContent (params : GenerateContentParameters)
    (k : GenerateContentResponse -> Async A).

Arguments Settled {A} c.
Arguments ReadAsDataURL {A} file k.
Arguments GenerateContent {A} params k.

Fixpoint andThen {A B : Type} (p : Async A) (f : A -> Async B) : Async B :=
  match p with
  | Settled (Return a) => f a
  | Settled (Throw e) => Settled (Throw e)
  | ReadAsDataURL file k => ReadAsDataURL file (fun s => andThen (k s) f)
  | GenerateContent params k => GenerateContent params (fun r => andThen (k r) f)
  end.

Notation "'await' x <- p ;; q" := (andThen p (fun x => q))
  (at level 61, x name, p at next level, right associativity).

(** The environment: what the file reader and the remote model answer. *)
Record World : Type := mkWorld {
  fileReader : File -> Completion string;
  remoteModel : GenerateContentParameters -> Completion GenerateContentResponse
}.

(** Running an [async] function in a world gives the requests sent to the
    remote model, in order, and how the promise settles. *)
Fixpoint run {A : Type} (w : World) (p : Async A)
  : list GenerateContentParameters * Completion A :=
  match p with
  | Settled c => ([], c)
  | ReadAsDataURL file k =>
      match fileReader w file with
      | Return s => run w (k s)
      | Throw e => ([], Throw e)
      end
  | GenerateContent params k =>
      match remoteModel w params with
      | Return r => let (sent, c) := run w (k r) in (params :: sent, c)
      | Throw e => ([params], Throw e)
      end
  end.

Definition requestsOf {A : Type} (w : World) (p : Async A)
  : list GenerateContentParameters := fst (run w p).

Definition settlement {A : Type} (w : World) (p : Async A) : Completion A :=
  snd (run w p).

(** *** The functions of the file *)

Definition dataUrlToParts (dataUrl : string) : Completion Blob :=
  let arr := split "," dataUrl in
  if (List.length arr <? 2)%nat then throwError "Invalid data URL"
  else
    match matchMime (nth 0 arr EmptyString) with
    | None => throwError "Could not parse MIME type from data URL"
    | Some group1 =>
        if negb (truthy group1)
        then throwError "Could not parse MIME type from data URL"
        else Return {| mimeType := group1; data := nth 1 arr EmptyString |}
    end.

Definition dataUrlToPart (dataUrl : string) : Completion Part :=
  bind (dataUrlToParts dataUrl) (fun b =>
  Return (inlinePart {| mimeType := mimeType b; data := data b |})).

Definition fileToPart (file : File) : Async Part :=
  await dataUrl <- ReadAsDataURL file (fun s => Settled (Return s)) ;;
  Settled (bind (dataUrlToParts dataUrl) (fun b =>
           Return (inlinePart {| mimeType := mimeType b; data := data b |}))).

(** The template literal [data:${mimeType};base64,${data}]. *)
Definition dataUrlOf (mimeType data : string) : string :=
  "data:" ++ mimeType ++ ";base64," ++ data.

(** The three error messages of [handleApiResponse]. *)
Definition blockedMessage (blockReason : string) (blockReasonMessage : option string) : string :=
  "La requête a été bloquée. Raison : " ++ blockReason ++ ". "
    ++ orElse blockReasonMessage "".

Definition stoppedMessage (finishReason : string) : string :=
  "La génération d'image s'est arrêtée de manière inattendue. Raison : "
    ++ finishReason ++ ". Cela est souvent lié aux paramètres de sécurité.".

Definition noImageMessage (textFeedback : option string) : string :=
  "Le modèle IA n'a pas retourné d'image. " ++
  (if truthyOpt textFeedback
   then "Le modèle a répondu avec le texte : " ++ str dquote
          ++ orElse textFeedback "" ++ str dquote
   else "Cela peut se produire à cause des filtres de sécurité ou si la requête est trop complexe. Veuillez essayer une autre image.").

(** [candidate.content?.parts?.find(part => part.inlineData)] *)
Definition findImagePart (candidate : Candidate) : option Part :=
  match content candidate with
  | None => None
  | Some c =>
      match parts c with
      | None => None
      | Some ps =>
          find (fun part => match inlineData part with Some _ => true | None => false end) ps
      end
  end.

(** The [for ... of] loop over the candidates: the first candidate whose
    search finds a part returns from the function. *)
Fixpoint firstImage (cands : list Candidate) : option Blob :=
  match cands with
  | [] => None
  | candidate :: rest =>
      match findImagePart candidate with
      | Some imagePart =>
          match inlineData imagePart with
          | Some b => Some b
          | None => firstImage rest
          end
      | None => firstImage rest
      end
  end.

(** [response.promptFeedback?.blockReason], when truthy, with the message
    that is destructured along with it. *)
Definition blockingFeedback (response : GenerateContentResponse)
  : option (string * option string) :=
  match promptFeedback response with
  | None => None
  | Some pf =>
      match blockReason pf with
      | None => None
      | Some reason =>
          if truthy reason then Some (reason, blockReasonMessage pf) else None
      end
  end.

(** [response.candidates?.[0]?.finishReason] *)
Definition firstFinishReason (response : GenerateContentResponse) : option string :=
  match candidates response with
  | Some (candidate :: _) => finishReason candidate
  | _ => None
  end.

Definition handleApiResponse (response : GenerateContentResponse) : Completion string :=
  match blockingFeedback response with
  | Some (reason, message) => throwError (blockedMessage reason message)
  | None =>
      match firstImage (match candidates response with Some cs => cs | None => [] end) with
      | Some b => Return (dataUrlOf (mimeType b) (data b))
      | None =>
          let stopped :=
            match firstFinishReason response with
            | Some reason =>
                if truthy reason && negb (String.eqb reason "STOP")
                then Some reason else None
            | None => None
            end in
          match stopped with
          | Some reason => throwError (stoppedMessage reason)
          | None =>
              let textFeedback := option_map JSTrim.trim (responseText response) in
              throwError (noImageMessage textFeedback)
          end
      end
  end.

Definition model : string := "gemini-2.5-flash-image".

Definition modelImagePrompt : string :=
  "Vous êtes une IA experte en photographie de mode. Transformez la personne sur cette image en une photo de mannequin de mode en pied, adaptée à un site de e-commerce. L'arrière-plan doit être un fond de studio neutre et épuré (gris clair, #f0f0f0). La personne doit avoir une expression neutre et professionnelle de mannequin. Préservez l'identité, les caractéristiques uniques et la morphologie de la personne, mais placez-la dans une pose de mannequin standard, debout et détendue. L'image finale doit être photoréaliste. Retournez UNIQUEMENT l'image finale.".

Definition tryOnPrompt : string :=
  "Vous êtes une IA experte en essayage virtuel. Vous recevrez une 'image de mannequin' et une 'image de vêtement'. Votre tâche est de créer une nouvelle image photoréaliste où la personne de l' 'image de mannequin' porte le vêtement de l' 'image de vêtement'.

**Règles cruciales :**
1.  **Remplacement complet du vêtement :** Vous DEVEZ complètement RETIRER et REMPLACER le vêtement porté par la personne dans l' 'image de mannequin' par le nouveau vêtement. Aucune partie du vêtement d'origine (par exemple, cols, manches, motifs) ne doit être visible dans l'image finale.
2.  **Préserver le mannequin :** Le visage, les cheveux, la silhouette et la pose de la personne de l' 'image de mannequin' DOIVENT rester inchangés.
3.  **Préserver l'arrière-plan :** L'intégralité de l'arrière-plan de l' 'image de mannequin' DOIT être parfaitement préservée.
4.  **Appliquer le vêtement :** Ajustez de manière réaliste le nouveau vêtement sur la personne. Il doit s'adapter à sa pose avec des plis, des ombres et un éclairage naturels, cohérents avec la scène originale.
5.  **Sortie :** Retournez UNIQUEMENT l'image finale, éditée. N'incluez aucun texte.".

Definition posePrompt (poseInstruction : string) : string :=
  "Vous êtes une IA experte en photographie de mode. Prenez cette image et régénérez-la sous une perspective différente. La personne, les vêtements et le style de l'arrière-plan doivent rester identiques. La nouvelle perspective doit être : " ++ str dquote
    ++ poseInstruction ++ str dquote ++ ". Retournez UNIQUEMENT l'image finale.".

(** [ai.models.generateContent({ model, contents: { parts } })] followed by
    [handleApiResponse]. *)
Definition generate (ps : list Part) : Async string :=
  await response <-
    GenerateContent {| requestModel := model; contents := {| parts := Some ps |} |}
      (fun r => Settled (Return r)) ;;
  Settled (handleApiResponse response).

Definition generateModelImage (userImage : File) : Async string :=
  await userImagePart <- fileToPart userImage ;;
  generate [userImagePart; textPart modelImagePrompt].

Definition generateVirtualTryOnImage (modelImageUrl : string) (garmentImage : File)
  : Async string :=
  await modelImagePart <- Settled (dataUrlToPart modelImageUrl) ;;
  await garmentImagePart <- fileToPart garmentImage ;;
  generate [modelImagePart; garmentImagePart; textPart tryOnPrompt].

Definition generatePoseVariation (tryOnImageUrl : string) (poseInstruction : string)
  : Async string :=
  await tryOnImagePart <- Settled (dataUrlToPart tryOnImageUrl) ;;
  generate [tryOnImagePart; textPart (posePrompt poseInstruction)].

End GeminiService.

(** ** [JSON.parse]

    The grammar of ECMA-404 as [JSON.parse] reads it: white space is the
    space, tab, line feed and carriage return; a text is one value between
    white space.  A number is kept as its lexeme, a string as the UTF-8
    bytes of the characters it denotes. *)

Module JSON.
Import JS.

Inductive Json : Type :=
| JNull
| JBool (b : bool)
| JNumber (lexeme : string)
| JString (s : string)
| JArray (items : list Json)
| JObject (members : list (string * Json)).

(** Outcome of a parser on its input: a value and the input left, a
    [SyntaxError], or not enough fuel to tell. *)
Inductive Parse (A : Type) : Type :=
| Parsed (a : A) (rest : string)
| SyntaxError
| OutOfFuel.

Arguments Parsed {A} a rest.
Arguments SyntaxError {A}.
Arguments OutOfFuel {A}.

Definition mapParse {A B : Type} (f : A -> B) (p : Parse A) : Parse B :=
  match p with
  | Parsed a rest => Parsed (f a) rest
  | SyntaxError => SyntaxError
  | OutOfFuel => OutOfFuel
  end.

Definition code (c : ascii) : N := N_of_ascii c.

Definition isWs (c : ascii) : bool :=
  Ascii.eqb c " "%char || Ascii.eqb c TAB || Ascii.eqb c LF || Ascii.eqb c CR.

Fixpoint skipWs (s : string) : string :=
  match s with
  | EmptyString => EmptyString
  | String c rest => if isWs c then skipWs rest else s
  end.

Definition isDigit (c : ascii) : bool :=
  (48 <=? code c)%N && (code c <=? 57)%N.

Fixpoint takeDigits (s : string) : string * string :=
  match s with
  | EmptyString => (EmptyString, EmptyString)
  | String c rest =>
      if isDigit c
      then let (ds, r) := takeDigits rest in (String c ds, r)
      else (EmptyString, s)
  end.

(** number = [-]? int frac? exp?, with int = [0] or a non-zero digit
    followed by digits. *)
Definition parseInt (s : string) : option (string * string) :=
  match s with
  | EmptyString => None
  | String c rest =>
      if Ascii.eqb c "0"%char then Some (str c, rest)
      else if isDigit c
           then let (ds, r) := takeDigits rest in Some (String c ds, r)
           else None
  end.

Definition parseFrac (s : string) : option (string * string) :=
  match s with
  | String c rest =>
      if Ascii.eqb c "."%char
      then match takeDigits rest with
           | (EmptyString, _) => None
           | (ds, r) => Some (String c ds, r)
           end
      else Some (EmptyString, s)
  | EmptyString => Some (EmptyString, s)
  end.

Definition parseExp (s : string) : option (string * string) :=
  match s with
  | String c rest =>
      if Ascii.eqb c "e"%char || Ascii.eqb c "E"%char
      then
        let (sign, afterSign) :=
          match rest with
          | String g r =>
              if Ascii.eqb g "+"%char || Ascii.eqb g "-"%char
              then (str g, r) else (EmptyString, rest)
          | EmptyString => (EmptyString, rest)
          end in
        match takeDigits afterSign with
        | (EmptyString, _) => None
        | (ds, r) => Some (String c (sign ++ ds), r)
        end
      else Some (EmptyString, s)
  | EmptyString => Some (EmptyString, s)
  end.

Definition parseNumber (s : string) : Parse Json :=
  let (sign, s0) :=
    match s with
    | String c rest => if Ascii.eqb c "-"%char then (str c, rest) else (EmptyString, s)
    | EmptyString => (EmptyString, s)
    end in
  match parseInt s0 with
  | None => SyntaxError
  | Some (int, s1) =>
      match parseFrac s1 with
      | None => SyntaxError
      | Some (frac, s2) =>
          match parseExp s2 with
          | None => SyntaxError
          | Some (exp, s3) => Parsed (JNumber (sign ++ int ++ frac ++ exp)) s3
          end
      end
  end.

(** UTF-8 bytes of a code point (of a lone surrogate too). *)
Definition utf8 (cp : N) : string :=
  (if cp <? 128 then str (ascii_of_N cp)
   else if cp <? 2048 then
     String (ascii_of_N (192 + cp / 64)) (str (ascii_of_N (128 + cp mod 64)))
   else if cp <? 65536 then
     String (ascii_of_N (224 + cp / 4096))
       (String (ascii_of_N (128 + (cp / 64) mod 64))
          (str (ascii_of_N (128 + cp mod 64))))
   else
     String (ascii_of_N (240 + cp / 262144))
       (String (ascii_of_N (128 + (cp / 4096) mod 64))
          (String (ascii_of_N (128 + (cp / 64) mod 64))
             (str (ascii_of_N (128 + cp mod 64))))))%N.

Definition hexDigit (c : ascii) : option N :=
  let n := code c in
  (if (48 <=? n) && (n <=? 57) then Some (n - 48)
   else if (65 <=? n) && (n <=? 70) then Some (n - 55)
   else if (97 <=? n) && (n <=? 102) then Some (n - 87)
   else None)%N.

(** Four hexadecimal digits: a UTF-16 code unit. *)
Definition hex4 (s : string) : option (N * string) :=
  match s with
  | String a (String b (String c (String d rest))) =>
      match hexDigit a, hexDigit b, hexDigit c, hexDigit d with
      | Some x, Some y, Some z, Some w => Some (4096 * x + 256 * y + 16 * z + w, rest)%N
      | _, _, _, _ => None
      end
  | _ => None
  end.

(** An escaped low surrogate, looked for after an escaped high one. *)
Definition lowSurrogate (s : string) : option (N * string) :=
  match s with
  | String b (String u rest) =>
      if Ascii.eqb b backslash && Ascii.eqb u "u"%char
      then match hex4 rest with
           | Some (lo, r) =>
               if ((56320 <=? lo) && (lo <=? 57343))%N then Some (lo, r) else None
           | None => None
           end
      else None
  | _ => None
  end.

Definition simpleEscape (c : ascii) : option ascii :=
  if Ascii.eqb c dquote then Some dquote
  else if Ascii.eqb c backslash then Some backslash
  else if Ascii.eqb c "/"%char then Some "/"%char
  else if Ascii.eqb c "b"%char then Some "008"%char
  else if Ascii.eqb c "f"%char then Some "012"%char
  else if Ascii.eqb c "n"%char then Some LF
  else if Ascii.eqb c "r"%char then Some CR
  else if Ascii.eqb c "t"%char then Some TAB
  else None.

(** The characters of a string literal, after its opening quote and up to
    its closing quote. *)
Fixpoint parseChars (fuel : nat) (s : string) : Parse string :=
  match fuel with
  | O => OutOfFuel
  | S f =>
      match s with
      | EmptyString => SyntaxError
      | String c rest =>
          if Ascii.eqb c dquote then Parsed EmptyString rest
          else if Ascii.eqb c backslash then
            match rest with
            | EmptyString => SyntaxError
            | String e rest2 =>
                if Ascii.eqb e "u"%char then
                  match hex4 rest2 with
                  | None => SyntaxError
                  | Some (hi, rest3) =>
                      match (if ((55296 <=? hi) && (hi <=? 56319))%N
                             then lowSurrogate rest3 else None) with
                      | Some (lo, rest4) =>
                          mapParse
                            (append (utf8 (65536 + (hi - 55296) * 1024 + (lo - 56320))%N))
                            (parseChars f rest4)
                      | None => mapParse (append (utf8 hi)) (parseChars f rest3)
                      end
                  end
                else
                  match simpleEscape e with
                  | Some ch => mapParse (String ch) (parseChars f rest2)
                  | None => SyntaxError
                  end
            end
          else if (code c <? 32)%N then SyntaxError
          else mapParse (String c) (parseChars f rest)
      end
  end.

Definition parseString (afterQuote : string) : Parse string :=
  parseChars (S (String.length afterQuote)) afterQuote.

Definition parseKeyword (word : string) (v : Json) (s : string) : Parse Json :=
  if prefix word s
  then Parsed v (JSTrim.dropString (String.length word) s)
  else SyntaxError.

(** A value at the start of [s]; the elements of an array after its [[];
    the members of an object after its [{].  The lists are entered past
    the white space, at the first element or member. *)
Fixpoint parseValue (fuel : nat) (s : string) : Parse Json :=
  match fuel with
  | O => OutOfFuel
  | S f =>
      match s with
      | EmptyString => SyntaxError
      | String c rest =>
          if Ascii.eqb c "{"%char then
            match skipWs rest with
            | EmptyString => SyntaxError
            | String c1 r1 as s1 =>
                if Ascii.eqb c1 "}"%char then Parsed (JObject []) r1
                else mapParse JObject (parseMembers f s1)
            end
          else if Ascii.eqb c "["%char then
            match skipWs rest with
            | EmptyString => SyntaxError
            | String c1 r1 as s1 =>
                if Ascii.eqb c1 "]"%char then Parsed (JArray []) r1
                else mapParse JArray (parseElements f s1)
            end
          else if Ascii.eqb c dquote then mapParse JString (parseString rest)
          else if Ascii.eqb c "t"%char then parseKeyword "true" (JBool true) s
          else if Ascii.eqb c "f"%char then parseKeyword "false" (JBool false) s
          else if Ascii.eqb c "n"%char then parseKeyword "null" JNull s
          else parseNumber s
      end
  end

with parseElements (fuel : nat) (s : string) : Parse (list Json) :=
  match fuel with
  | O => OutOfFuel
  | S f =>
      match parseValue f s with
      | SyntaxError => SyntaxError
      | OutOfFuel => OutOfFuel
      | Parsed v r =>
          match skipWs r with
          | EmptyString => SyntaxError
          | String c r1 =>
              if Ascii.eqb c comma
              then mapParse (cons v) (parseElements f (skipWs r1))
              else if Ascii.eqb c "]"%char then Parsed [v] r1
              else SyntaxError
          end
      end
  end

with parseMembers (fuel : nat) (s : string) : Parse (list (string * Json)) :=
  match fuel with
  | O => OutOfFuel
  | S f =>
      match s with
      | EmptyString => SyntaxError
      | String q afterQuote =>
          if negb (Ascii.eqb q dquote) then SyntaxError
          else
            match parseString afterQuote with
            | SyntaxError => SyntaxError
            | OutOfFuel => OutOfFuel
            | Parsed key r =>
                match skipWs r with
                | EmptyString => SyntaxError
                | String c r1 =>
                    if negb (Ascii.eqb c colon) then SyntaxError
                    else
                      match parseValue f (skipWs r1) with
                      | SyntaxError => SyntaxError
                      | OutOfFuel => OutOfFuel
                      | Parsed v r2 =>
                          match skipWs r2 with
                          | EmptyString => SyntaxError
                          | String d r3 =>
                              if Ascii.eqb d comma
                              then mapParse (cons (key, v)) (parseMembers f (skipWs r3))
                              else if Ascii.eqb d "}"%char then Parsed [(key, v)] r3
                              else SyntaxError
                          end
                      end
                end
            end
      end
  end.

(** [JSON.parse(text)]: the value, or [None] for the [SyntaxError] thrown.
    The fuel is enough for every text (see [parse_never_out_of_fuel]). *)
Definition parse (text : string) : option Json :=
  match parseValue (2 * String.length text + 1) (skipWs text) with
  | Parsed v rest =>
      match skipWs rest with
      | EmptyString => Some v
      | String _ _ => None
      end
  | SyntaxError => None
  | OutOfFuel => None
  end.

(** The own property [key] of an object made by [JSON.parse]: the last
    member of that name. *)
Fixpoint lookup (key : string) (members : list (string * Json)) : option Json :=
  match members with
  | [] => None
  | (k, v) :: rest =>
      match lookup key rest with
      | Some later => Some later
      | None => if String.eqb k key then Some v else None
      end
  end.

(** [v?.key] for [key] one of [error] and [message], which no prototype
    of a parsed value defines: [undefined] unless [v] is an object with
    that member. *)
Definition optionalGet (v : option Json) (key : string) : option Json :=
  match v with
  | Some (JObject members) => lookup key members
  | _ => None
  end.

End JSON.

(** ** [src/lib/utils.ts] *)

Module Utils.
Import JS.

Definition unknownErrorMessage : string := "Une erreur inconnue est survenue.".

Definition marker : string := "Unsupported MIME type".

Definition unsupportedTypeMessage (mimeType : string) : string :=
  "Le type de fichier '" ++ mimeType
    ++ "' n'est pas pris en charge. Veuillez utiliser un format comme PNG, JPEG, ou WEBP.".

Definition unsupportedFormatMessage : string :=
  "Format de fichier non pris en charge. Veuillez télécharger une image au format PNG, JPEG, ou WEBP.".

(** The first statement of the function: the message behind the error. *)
Definition rawMessageOf (error : Unknown) : string :=
  match error with
  | ErrorObject message => message
  | StringValue s => s
  | OtherValue true toStr => toStr
  | OtherValue false _ => unknownErrorMessage
  end.

(** The body of the [try] block: [Some m] when it returns [m], [None] when
    it falls out of the [if] or [JSON.parse] throws into the empty [catch]. *)
Definition tryNestedMessage (rawMessage : string) : option string :=
  match JSON.parse rawMessage with
  | None => None
  | Some errorJson =>
      let nestedMessage :=
        JSON.optionalGet (JSON.optionalGet (Some errorJson) "error") "message" in
      match nestedMessage with
      | Some (JSON.JString nested) =>
          if includes marker nested
          then
            let mimeType := orElse (at_ (split ": " nested) 1) "unsupported" in
            Some (unsupportedTypeMessage mimeType)
          else None
      | _ => None
      end
  end.

Definition getFriendlyErrorMessage (error : Unknown) (context : string) : string :=
  let rawMessage := rawMessageOf error in
  if includes marker rawMessage
  then
    match tryNestedMessage rawMessage with
    | Some message => message
    | None => unsupportedFormatMessage
    end
  else context ++ ". " ++ rawMessage.

End Utils.

(** ** [src/components/Canvas.tsx] *)

Module Canvas.

(** *** Numbers and the canvas *)

Definition number : Set := float.

Bind Scope float_scope with number.

(** The number that an integer attribute of the DOM reads as. *)
Definition numberOfZ (z : Z) : number :=
  SF2Prim (binary_normalize prec emax z 0 false).

(** A number is falsy when it is [0], [-0] or [NaN]. *)
Definition falsy (x : number) : bool := is_zero x || is_nan x.

(** The integer part of a finite number (truncation toward zero), 0 for
    [NaN] and the infinities. *)
Definition integerPart (x : number) : Z :=
  match Prim2SF x with
  | S754_finite negative m e =>
      let magnitude :=
        if (0 <=? e)%Z then Z.shiftl (Zpos m) e else Z.shiftr (Zpos m) (- e) in
      if negative then (- magnitude)%Z else magnitude
  | _ => 0%Z
  end.

(** Conversion of a number to the [unsigned long] of Web IDL: [NaN], the
    zeros and the infinities give 0, any other number its integer part
    modulo 2^32. *)
Definition toUnsignedLong (x : number) : Z :=
  (integerPart x mod 4294967296)%Z.

(** Assignment to [canvas.width] or [canvas.height], which reflect content
    attributes with a default: the number is converted to [unsigned long];
    a result above 2147483647 is replaced by the default (300 for the
    width, 150 for the height). *)
Definition setDimension (dflt : Z) (x : number) : Z :=
  let v := toUnsignedLong x in
  if (v <=? 2147483647)%Z then v else dflt.

Record HTMLImageElement : Type := mkImage {
  naturalWidth : Z;
  naturalHeight : Z;
  width : Z;
  height : Z
}.

Inductive CropUnit : Type := px | percent.

(** Modelled from the spec: the type [Crop] is declared by the cropping
    widget, which is not part of the repository; a crop region is
    [{x, y, width, height}] in display pixels, with the unit the widget
    adds. *)
Record Crop : Type := mkCrop {
  x : number;
  y : number;
  cropWidth : number;
  cropHeight : number;
  unit : CropUnit
}.

(** The arguments of the one [ctx.drawImage] call. *)
Record DrawImage : Type := mkDrawImage {
  sx : number; sy : number; sWidth : number; sHeight : number;
  dx : number; dy : number; dWidth : number; dHeight : number
}.

(** What [canvas.toDataURL(type, quality)] encodes: the bitmap size of the
    canvas and what was drawn on it.  The encoder of the browser is outside
    the model, so this description stands for the string returned. *)
Record EncodedCanvas : Type := mkEncoded {
  canvasWidth : Z;
  canvasHeight : Z;
  drawn : DrawImage;
  encodedType : string;
  quality : number
}.

(** [contextAvailable] is whether [canvas.getContext('2d')] gives a context
    rather than [null]. *)
Definition getCroppedImgDataUrl (contextAvailable : bool)
  (image : HTMLImageElement) (crop : Crop) : option EncodedCanvas :=
  let scaleX := (numberOfZ (naturalWidth image) / numberOfZ (width image))%float in
  let scaleY := (numberOfZ (naturalHeight image) / numberOfZ (height image))%float in
  if falsy (cropWidth crop) || falsy (cropHeight crop) then None
  else
    let canvas_width := setDimension 300 (cropWidth crop * scaleX)%float in
    let canvas_height := setDimension 150 (cropHeight crop * scaleY)%float in
    if negb contextAvailable then None
    else
      Some {| canvasWidth := canvas_width;
              canvasHeight := canvas_height;
              drawn := {| sx := (x crop * scaleX)%float;
                          sy := (y crop * scaleY)%float;
                          sWidth := (cropWidth crop * scaleX)%float;
                          sHeight := (cropHeight crop * scaleY)%float;
                          dx := zero; dy := zero;
                          dWidth := numberOfZ canvas_width;
                          dHeight := numberOfZ canvas_height |};
              encodedType := "image/jpeg";
              quality := 0.9%float |}.

(** *** Pose navigation *)

Local Open Scope Z_scope.

(** [arr.indexOf(v)]: the first index holding [v], or -1. *)
Fixpoint indexOfFrom (i : Z) (arr : list string) (v : string) : Z :=
  match arr with
  | [] => -1
  | a :: rest => if String.eqb a v then i else indexOfFrom (i + 1) rest v
  end.

Definition indexOf (arr : list string) (v : string) : Z := indexOfFrom 0 arr v.

Definition lengthOf (arr : list string) : Z := Z.of_nat (List.length arr).

(** [arr[i]]: [undefined] when [i] is not an index of the array. *)
Definition item (arr : list string) (i : Z) : option string :=
  if i <? 0 then None else nth_error arr (Z.to_nat i).

(** What a handler does with the [onSelectPose] callback of the props. *)
Inductive Effect : Type :=
| NotCalled
| OnSelectPose (instruction : option string).

(** The remainder [%] of the sources is the truncated one, [Z.rem]. *)
Definition handlePreviousPose (isLoading : bool) (poseInstructions : list string)
  (currentPoseInstruction : string) : Effect :=
  if isLoading then NotCalled
  else
    let currentIndex := indexOf poseInstructions currentPoseInstruction in
    let newIndex :=
      if currentIndex =? -1
      then lengthOf poseInstructions - 1
      else Z.rem (currentIndex - 1 + lengthOf poseInstructions) (lengthOf poseInstructions) in
    OnSelectPose (item poseInstructions newIndex).

Definition handleNextPose (isLoading : bool) (poseInstructions : list string)
  (currentPoseInstruction : string) : Effect :=
  if isLoading then NotCalled
  else
    let currentIndex := indexOf poseInstructions currentPoseInstruction in
    let newIndex :=
      if currentIndex =? -1
      then 0
      else Z.rem (currentIndex + 1) (lengthOf poseInstructions) in
    OnSelectPose (item poseInstructions newIndex).

End Canvas.

(** ** The state of the [Canvas] component and its other handlers *)

Module CanvasComponent.
Import JS Canvas.

(** The [useState] cells of the component.  The data URL of a crop is
    kept as the description of the canvas that [toDataURL] encoded. *)
Record State : Type := mkState {
  isPoseMenuOpen : bool;
  isCropping : bool;
  crop : option Crop;
  croppedImageUrl : option EncodedCanvas;
  customPoseInput : string
}.

Definition initialState : State :=
  {| isPoseMenuOpen := false; isCropping := false; crop := None;
     croppedImageUrl := None; customPoseInput := EmptyString |}.

(** An image on display: the [displayImageUrl] of the props or a crop. *)
Inductive ImageUrl : Type :=
| DisplayUrl (url : string)
| CroppedUrl (encoded : EncodedCanvas).

(** [croppedImageUrl ?? displayImageUrl] *)
Definition imageToDisplay (displayImageUrl : option string) (st : State)
  : option ImageUrl :=
  match croppedImageUrl st with
  | Some encoded => Some (CroppedUrl encoded)
  | None => option_map DisplayUrl displayImageUrl
  end.

(** The effect that runs when [displayImageUrl] changes. *)
Definition onDisplayImageChange (st : State) : State :=
  {| isPoseMenuOpen := isPoseMenuOpen st; isCropping := isCropping st;
     crop := None; croppedImageUrl := None;
     customPoseInput := customPoseInput st |}.

(** The handler gives what it does with [onSelectPose] and the next state
    ([setCustomPoseInput('')], [setIsPoseMenuOpen(false)]). *)
Definition handleCustomPoseSubmit (isLoading : bool) (st : State) : Effect * State :=
  if isLoading || negb (truthy (JSTrim.trim (customPoseInput st)))
  then (NotCalled, st)
  else (OnSelectPose (Some (JSTrim.trim (customPoseInput st))),
        {| isPoseMenuOpen := false; isCropping := isCropping st;
           crop := crop st; croppedImageUrl := croppedImageUrl st;
           customPoseInput := EmptyString |}).

(** [imgRef] is [imgRef.current], the image element when it is mounted. *)
Definition handleConfirmCrop (contextAvailable : bool)
  (imgRef : option HTMLImageElement) (st : State) : State :=
  match crop st, imgRef with
  | Some c, Some image =>
      let croppedDataUrl := getCroppedImgDataUrl contextAvailable image c in
      {| isPoseMenuOpen := isPoseMenuOpen st; isCropping := false;
         crop := crop st;
         croppedImageUrl :=
           match croppedDataUrl with
           | Some encoded => Some encoded
           | None => croppedImageUrl st
           end;
         customPoseInput := customPoseInput st |}
  | _, _ => st
  end.

Definition handleCancelCrop (st : State) : State :=
  {| isPoseMenuOpen := isPoseMenuOpen st; isCropping := false;
     crop := None; croppedImageUrl := croppedImageUrl st;
     customPoseInput := customPoseInput st |}.

(** The default crop set when the image to crop has loaded: the full
    width and the top 70% of the height of the displayed image. *)
Definition americanShotCrop (image : HTMLImageElement) : Crop :=
  {| x := 0; y := 0;
     cropWidth := numberOfZ (width image);
     cropHeight := (numberOfZ (height image) * 0.7)%float;
     unit := px |}.

(** One render of the component: the [displayImageUrl] it was rendered
    with, its state cells, and whether the effect that depends on
    [displayImageUrl] is still to run.  The effect runs after the render
    is committed, so a render with a new [displayImageUrl] first shows
    the state as it was. *)
Record Rendered : Type := mkRendered {
  renderedUrl : option string;
  cells : State;
  effectPending : bool
}.

(** The first render; the effect runs after it too. *)
Definition mounted (displayImageUrl : option string) : Rendered :=
  {| renderedUrl := displayImageUrl; cells := initialState; effectPending := true |}.

(** Whether a dependency of the effect is the same value as before. *)
Definition sameUrl (a b : option string) : bool :=
  match a, b with
  | Some u, Some v => String.eqb u v
  | None, None => true
  | _, _ => false
  end.

(** What is on display in a render. *)
Definition displayed (r : Rendered) : option ImageUrl :=
  imageToDisplay (renderedUrl r) (cells r).

(** The events of the component that touch the crop and the custom pose:
    a render with the [displayImageUrl] that the parent passes, the run
    of the pending effect, the handlers above and the inline handlers of
    the markup. *)
Inductive Event : Type :=
| RenderedWith (displayImageUrl : option string)
| EffectsRun
| CropClicked
| CropEdited (c : Crop)
| ImageLoaded (image : HTMLImageElement)
| ConfirmClicked (contextAvailable : bool) (imgRef : option HTMLImageElement)
| CancelClicked
| CustomPoseTyped (text : string)
| CustomPoseSubmitted (isLoading : bool)
| PoseMenuHovered (inside : bool).

Definition setCrop (c : option Crop) (st : State) : State :=
  {| isPoseMenuOpen := isPoseMenuOpen st; isCropping := isCropping st;
     crop := c; croppedImageUrl := croppedImageUrl st;
     customPoseInput := customPoseInput st |}.

(** A state update by a handler: the next render has the new cells. *)
Definition withCells (r : Rendered) (st : State) : Rendered :=
  {| renderedUrl := renderedUrl r; cells := st; effectPending := effectPending r |}.

Definition step (r : Rendered) (ev : Event) : Rendered :=
  let st := cells r in
  match ev with
  | RenderedWith displayImageUrl =>
      {| renderedUrl := displayImageUrl; cells := st;
         effectPending :=
           effectPending r || negb (sameUrl displayImageUrl (renderedUrl r)) |}
  | EffectsRun =>
      if effectPending r
      then {| renderedUrl := renderedUrl r; cells := onDisplayImageChange st;
              effectPending := false |}
      else r
  | CropClicked =>
      withCells r
        {| isPoseMenuOpen := isPoseMenuOpen st; isCropping := true;
           crop := crop st; croppedImageUrl := croppedImageUrl st;
           customPoseInput := customPoseInput st |}
  | CropEdited c => withCells r (setCrop (Some c) st)
  | ImageLoaded image => withCells r (setCrop (Some (americanShotCrop image)) st)
  | ConfirmClicked contextAvailable imgRef =>
      withCells r (handleConfirmCrop contextAvailable imgRef st)
  | CancelClicked => withCells r (handleCancelCrop st)
  | CustomPoseTyped text =>
      withCells r
        {| isPoseMenuOpen := isPoseMenuOpen st; isCropping := isCropping st;
           crop := crop st; croppedImageUrl := croppedImageUrl st;
           customPoseInput := text |}
  | CustomPoseSubmitted isLoading =>
      withCells r (snd (handleCustomPoseSubmit isLoading st))
  | PoseMenuHovered inside =>
      withCells r
        {| isPoseMenuOpen := inside; isCropping := isCropping st;
           crop := crop st; croppedImageUrl := croppedImageUrl st;
           customPoseInput := customPoseInput st |}
  end.

(** The render reached by a sequence of events after mounting with
    [displayImageUrl]. *)
Definition renderAfter (displayImageUrl : option string) (events : list Event)
  : Rendered :=
  fold_left step events (mounted displayImageUrl).

End CanvasComponent.

(* ================================================================== *)
(** * Part II: the vocabulary of the properties *)
(* ================================================================== *)

Section ClassifierVocabulary.
Import JS GeminiService.

(** The parts of a candidate, none when the content or its parts are
    missing. *)
Definition partsOf (candidate : Candidate) : list Part :=
  match content candidate with
  | Some c => match parts c with Some ps => ps | None => [] end
  | None => []
  end.

(** The parts of a whole response, in candidate order then part order. *)
Definition allParts (response : GenerateContentResponse) : list Part :=
  flat_map partsOf (match candidates response with Some cs => cs | None => [] end).

(** The prompt feedback carries a block reason: the field is there and
    is not the empty string, the one string that is falsy. *)
Definition hasBlockReason (response : GenerateContentResponse) : Prop :=
  exists pf reason,
    promptFeedback response = Some pf /\ blockReason pf = Some reason /\ reason <> "".

(** [p] is the first inline-image part of the list and [b] is its image. *)
Definition firstInlineImage (ps : list Part) (p : Part) (b : Blob) : Prop :=
  exists before after,
    ps = before ++ p :: after /\
    Forall (fun q => inlineData q = None) before /\
    inlineData p = Some b.

(** The image of the first part that has one, by a scan of the list. *)
Fixpoint firstInline (ps : list Part) : option Blob :=
  match ps with
  | [] => None
  | p :: rest =>
      match inlineData p with
      | Some b => Some b
      | None => firstInline rest
      end
  end.

(** Sample responses: blocked though it holds an image; an image in the
    second candidate only, after a text part; stopped for safety. *)
Definition blockedWithImage : GenerateContentResponse :=
  {| promptFeedback :=
       Some {| blockReason := Some "SAFETY"; blockReasonMessage := Some "Contenu refusé" |};
     candidates :=
       Some [ {| content := Some {| parts := Some [inlinePart (mkBlob "image/png" "iVBORw0KGgo=")] |};
                 finishReason := Some "STOP" |} ];
     responseText := None |}.

Definition imageInSecondCandidate : GenerateContentResponse :=
  {| promptFeedback := Some {| blockReason := None; blockReasonMessage := None |};
     candidates :=
       Some [ {| content := Some {| parts := Some [textPart "Voici"] |};
                 finishReason := Some "STOP" |};
              {| content := Some {| parts := Some [textPart "le résultat";
                                                  inlinePart (mkBlob "image/png" "AAAA");
                                                  inlinePart (mkBlob "image/jpeg" "BBBB")] |};
                 finishReason := Some "STOP" |} ];
     responseText := Some "Voici" |}.

Definition stoppedForSafety : GenerateContentResponse :=
  {| promptFeedback := None;
     candidates :=
       Some [ {| content := Some {| parts := Some [textPart "Désolé"] |};
                 finishReason := Some "SAFETY" |};
              {| content := None; finishReason := Some "STOP" |} ];
     responseText := Some "Désolé" |}.

End ClassifierVocabulary.

Section CodecVocabulary.
Import JS GeminiService.
Local Open Scope string_scope.

(** [h] is the segment of [d] before its first occurrence of [c]. *)
Definition beforeFirst (c : ascii) (d h : string) : Prop :=
  exists rest, d = h ++ String c rest /\ containsChar c h = false.

(** The expression [/:(.*?);/], declaratively: it matches [h] at the colon that follows [pre] and
    captures [t] when [h] reads [pre : t ; post], where [t], being taken by
    a lazy [.*?], holds no semicolon and no line terminator.  [match]
    returns the leftmost such match. *)
Definition capturesAt (h pre t : string) : Prop :=
  exists post,
    h = pre ++ String colon (t ++ String semicolon post) /\
    containsChar semicolon t = false /\
    hasLineTerminator t = false.

(** The expression matches somewhere in [h]. *)
Definition matches (h : string) : Prop := exists pre t, capturesAt h pre t.

(** [t] is what the leftmost match in [h] captures. *)
Definition firstCapture (h t : string) : Prop :=
  exists pre,
    capturesAt h pre t /\
    forall pre' t', capturesAt h pre' t' -> String.length pre <= String.length pre'.

(** The header of [d] holds a MIME-type pattern [:<type>;], the type being
    a non-empty text without semicolon or line terminator. *)
Definition hasMimePattern (h : string) : Prop :=
  exists pre t, capturesAt h pre t /\ t <> "".

(** The call completes by a [throw]. *)
Definition throws {A : Type} (c : Completion A) : Prop := exists e, c = Throw e.

End CodecVocabulary.

Section PipelineVocabulary.
Import JS GeminiService.

(** The inline images of a request, in the order of its parts. *)
Definition inlineImages (request : GenerateContentParameters) : list Blob :=
  flat_map (fun p => match inlineData p with Some b => [b] | None => [] end)
    (match parts (contents request) with Some ps => ps | None => [] end).

(** A world where every file reads as a small JPEG and the model answers
    with a PNG. *)
Definition studio : World :=
  {| fileReader := fun _ => Return "data:image/jpeg;base64,/9j/4AAQSkZJRg=="%string;
     remoteModel := fun _ =>
       Return {| promptFeedback := None;
                 candidates :=
                   Some [ {| content := Some {| parts := Some [inlinePart (mkBlob "image/png" "iVBORw0KGgo=")] |};
                             finishReason := Some "STOP"%string |} ];
                 responseText := None |} |}.

End PipelineVocabulary.

Section MessageVocabulary.
Import JS Utils.
Local Open Scope string_scope.

(** The JSON text whose [error.message] is the unsupported-type message
    for [image/bmp]. *)
Definition nestedJsonMessage : string :=
  "{" ++ str dquote ++ "error" ++ str dquote ++ ":{" ++ str dquote ++ "message"
    ++ str dquote ++ ":" ++ str dquote ++ "Unsupported MIME type: image/bmp"
    ++ str dquote ++ "}}".

End MessageVocabulary.

Section CropVocabulary.
Import Canvas.

(** The horizontal and vertical scales of a displayed image. *)
Definition scaleX (image : HTMLImageElement) : number :=
  (numberOfZ (naturalWidth image) / numberOfZ (width image))%float.

Definition scaleY (image : HTMLImageElement) : number :=
  (numberOfZ (naturalHeight image) / numberOfZ (height image))%float.

(** The integer nearest to a finite number, ties going up, as
    [Math.round] gives it; 0 for [NaN] and the infinities. *)
Definition roundNearest (v : number) : Z :=
  match Prim2SF v with
  | S754_finite negative m e =>
      let n := if negative then Zneg m else Zpos m in
      if (0 <=? e)%Z then Z.shiftl n e
      else Z.shiftr (n + Z.shiftl 1 (- e - 1)) (- e)
  | _ => 0%Z
  end.

(** A photo shown at four fifths of its size, and a region selected on
    it. *)
Definition photo : HTMLImageElement :=
  {| naturalWidth := 1280; naturalHeight := 1920; width := 1024; height := 1536 |}.

Definition selection : Crop :=
  {| x := 10; y := 20; cropWidth := 303; cropHeight := 405; unit := px |}.

End CropVocabulary.

Section FurtherVocabulary.
Import JS GeminiService.
Local Open Scope string_scope.

(** A MIME type that the decoder gives back whole: not empty, and without
    comma, semicolon or line terminator. *)
Definition plainMime (m : string) : bool :=
  truthy m && negb (containsChar comma m) && negb (containsChar semicolon m)
    && negb (hasLineTerminator m).

(** The files an [async] function asks the file reader for, in order. *)
Fixpoint filesRead {A : Type} (w : World) (p : Async A) : list File :=
  match p with
  | Settled _ => []
  | ReadAsDataURL file k =>
      (file :: match fileReader w file with
               | Return s => filesRead w (k s)
               | Throw _ => []
               end)%list
  | GenerateContent params k =>
      match remoteModel w params with
      | Return r => filesRead w (k r)
      | Throw _ => []
      end
  end.

(** The request that the three operations build from their parts. *)
Definition requestOf (ps : list Part) : GenerateContentParameters :=
  {| requestModel := model; contents := {| parts := Some ps |} |}.

(** How a request settles once it is sent: the classification of the
    response of the model, or the rejection of the model. *)
Definition answerTo (w : World) (request : GenerateContentParameters)
  : Completion string :=
  match remoteModel w request with
  | Return response => handleApiResponse response
  | Throw e => Throw e
  end.


(** The JSON text [{"error":{"message":"<msg>"}}], quotes included. *)
Definition jsonErrorText (msg : string) : string :=
  "{" ++ str dquote ++ "error" ++ str dquote ++ ":{" ++ str dquote ++ "message"
    ++ str dquote ++ ":" ++ str dquote ++ msg ++ str dquote ++ "}}".

(** The characters that a JSON string literal holds as they are: no
    quote, no backslash and no control character. *)
Fixpoint jsonPlain (s : string) : bool :=
  match s with
  | EmptyString => true
  | String c rest =>
      negb (Ascii.eqb c dquote) && negb (Ascii.eqb c backslash)
        && negb (JSON.code c <? 32)%N && jsonPlain rest
  end.

End FurtherVocabulary.

(* ================================================================== *)
(** * Part III: properties *)
(* ================================================================== *)

(** ** Classification of a generation response *)

Section ResponseClassifier.
Import JS GeminiService.

Lemma truthy_nonempty (s : string) : truthy s = true <-> s <> "".
Proof.
  destruct s; simpl; split; intro H; congruence.
Qed.

Lemma firstInline_app (l1 l2 : list Part) :
  firstInline (l1 ++ l2) =
  match firstInline l1 with Some b => Some b | None => firstInline l2 end.
Proof.
  induction l1 as [|p l1 IH]; simpl; [reflexivity|].
  destruct (inlineData p); [reflexivity | exact IH].
Qed.

Lemma findImagePart_firstInline (candidate : Candidate) :
  match findImagePart candidate with
  | Some imagePart => inlineData imagePart
  | None => None
  end = firstInline (partsOf candidate).
Proof.
  unfold findImagePart, partsOf.
  destruct (content candidate) as [c|]; [|reflexivity].
  destruct (parts c) as [ps|]; [|reflexivity].
  induction ps as [|p ps IH]; simpl; [reflexivity|].
  destruct (inlineData p) eqn:E; simpl; [exact E | exact IH].
Qed.

Lemma firstImage_flat (cands : list Candidate) :
  firstImage cands = firstInline (flat_map partsOf cands).
Proof.
  induction cands as [|c cands IH]; simpl; [reflexivity|].
  rewrite firstInline_app, <- findImagePart_firstInline.
  destruct (findImagePart c) as [imagePart|]; [|exact IH].
  destruct (inlineData imagePart); [reflexivity | exact IH].
Qed.

Lemma firstInline_Some (ps : list Part) (b : Blob) :
  firstInline ps = Some b -> exists p, firstInlineImage ps p b.
Proof.
  induction ps as [|q ps IH]; simpl; [discriminate|].
  destruct (inlineData q) as [b'|] eqn:E.
  - intros [= <-]. exists q, [], ps. auto.
  - intros H. destruct (IH H) as (p & before & after & -> & Hb & Hp).
    exists p, (q :: before), after. auto.
Qed.

Lemma firstInline_complete (ps : list Part) (p : Part) (b : Blob) :
  firstInlineImage ps p b -> firstInline ps = Some b.
Proof.
  intros (before & after & -> & Hb & Hp).
  induction before as [|q before IH]; simpl.
  - now rewrite Hp.
  - inversion Hb as [|? ? Hq Hrest]; subst. rewrite Hq. now apply IH.
Qed.

(** The first inline image of a list of parts is unique. *)
Lemma firstInlineImage_unique (ps : list Part) (p p' : Part) (b b' : Blob) :
  firstInlineImage ps p b -> firstInlineImage ps p' b' -> b = b'.
Proof.
  intros H H'. apply firstInline_complete in H, H'. congruence.
Qed.

Lemma firstInline_None (ps : list Part) :
  firstInline ps = None <-> Forall (fun q => inlineData q = None) ps.
Proof.
  induction ps as [|q ps IH]; simpl.
  - split; auto.
  - destruct (inlineData q) eqn:E; split; intro H.
    + discriminate.
    + inversion H; congruence.
    + constructor; [exact E | apply IH, H].
    + inversion H; subst. apply IH; assumption.
Qed.

Lemma not_blocked (response : GenerateContentResponse) :
  ~ hasBlockReason response -> blockingFeedback response = None.
Proof.
  intros H. unfold blockingFeedback.
  destruct (promptFeedback response) as [pf|] eqn:Epf; [|reflexivity].
  destruct (blockReason pf) as [reason|] eqn:Er; [|reflexivity].
  destruct (truthy reason) eqn:Et; [|reflexivity].
  exfalso. apply H. exists pf, reason. repeat split; trivial.
  apply truthy_nonempty, Et.
Qed.

(** C1.  A response whose prompt feedback carries a block reason is
    classified as blocked: the function throws an [Error] whose message is
    the blocked sentence holding that reason, followed by the optional
    message when there is one, and it returns no data URL, whatever the
    candidates hold (an inline image included). *)
Theorem blocked_takes_precedence :
  forall response pf reason,
    promptFeedback response = Some pf ->
    blockReason pf = Some reason ->
    reason <> "" ->
    handleApiResponse response
      = Throw (ErrorObject
                 ("La requête a été bloquée. Raison : " ++ reason ++ ". "
                    ++ match blockReasonMessage pf with
                       | Some message => message
                       | None => ""
                       end)%string)
    /\ forall url, handleApiResponse response <> Return url.
Proof.
  intros response pf reason Hpf Hr Hne.
  assert (E : handleApiResponse response
              = throwError (blockedMessage reason (blockReasonMessage pf))).
  { unfold handleApiResponse, blockingFeedback. rewrite Hpf, Hr.
    apply truthy_nonempty in Hne. rewrite Hne. reflexivity. }
  split; [|intros url; rewrite E; discriminate].
  rewrite E. unfold throwError, blockedMessage, orElse.
  destruct (blockReasonMessage pf) as [[|c message]|]; reflexivity.
Qed.

Lemma blocked_takes_precedence_witness :
  handleApiResponse blockedWithImage
    = Throw (ErrorObject
               ("La requête a été bloquée. Raison : " ++ "SAFETY" ++ ". "
                  ++ "Contenu refusé")%string)
  /\ forall url, handleApiResponse blockedWithImage <> Return url.
Proof.
  apply (blocked_takes_precedence blockedWithImage
           {| blockReason := Some "SAFETY"; blockReasonMessage := Some "Contenu refusé" |}
           "SAFETY").
  - reflexivity.
  - reflexivity.
  - discriminate.
Defined.

(** C2.  With no block reason and at least one inline-image part, the
    function returns the data URL [data:<mimeType>;base64,<data>] of the
    first inline-image part in candidate order, then part order. *)
Theorem first_inline_image_is_returned :
  forall response,
    ~ hasBlockReason response ->
    (exists p, In p (allParts response) /\ inlineData p <> None) ->
    exists p b,
      firstInlineImage (allParts response) p b /\
      handleApiResponse response
        = Return ("data:" ++ mimeType b ++ ";base64," ++ data b)%string.
Proof.
  intros response Hnb (p0 & Hin & Himg).
  destruct (firstInline (allParts response)) as [b|] eqn:E.
  - destruct (firstInline_Some _ _ E) as (p & Hp).
    exists p, b. split; [exact Hp|].
    unfold handleApiResponse. rewrite (not_blocked _ Hnb).
    unfold allParts in E. rewrite <- firstImage_flat in E. rewrite E.
    reflexivity.
  - exfalso. apply firstInline_None in E.
    rewrite Forall_forall in E. apply Himg, E, Hin.
Qed.

Lemma first_inline_image_is_returned_witness :
  exists p b,
    firstInlineImage (allParts imageInSecondCandidate) p b /\
    handleApiResponse imageInSecondCandidate
      = Return ("data:" ++ mimeType b ++ ";base64," ++ data b)%string.
Proof.
  apply (first_inline_image_is_returned imageInSecondCandidate).
  - intros (pf & reason & Hpf & Hr & _). simpl in Hpf.
    injection Hpf as <-. discriminate Hr.
  - exists (inlinePart (mkBlob "image/png" "AAAA")). split.
    + simpl. auto.
    + discriminate.
Defined.

(** C3.  With no block reason and no inline-image part in any candidate, a
    finish reason of the first candidate that is present and is not [STOP]
    makes the function throw an [Error] whose message is the
    abnormal-stop sentence holding that reason; the other candidates, and
    so their finish reasons, are arbitrary. *)
Theorem abnormal_stop_of_first_candidate :
  forall response first others reason,
    ~ hasBlockReason response ->
    candidates response = Some (first :: others) ->
    Forall (fun p => inlineData p = None) (allParts response) ->
    finishReason first = Some reason ->
    reason <> "" ->
    reason <> "STOP" ->
    handleApiResponse response
      = Throw (ErrorObject
                 ("La génération d'image s'est arrêtée de manière inattendue. Raison : "
                    ++ reason
                    ++ ". Cela est souvent lié aux paramètres de sécurité.")%string).
Proof.
  intros response first others reason Hnb Hc Hnone Hfr Hne Hstop.
  unfold handleApiResponse. rewrite (not_blocked _ Hnb).
  apply firstInline_None in Hnone. unfold allParts in Hnone.
  rewrite <- firstImage_flat in Hnone. rewrite Hnone.
  unfold firstFinishReason. rewrite Hc, Hfr.
  apply truthy_nonempty in Hne. rewrite Hne.
  apply String.eqb_neq in Hstop. rewrite Hstop. reflexivity.
Qed.

Lemma abnormal_stop_of_first_candidate_witness :
  handleApiResponse stoppedForSafety
    = Throw (ErrorObject
               ("La génération d'image s'est arrêtée de manière inattendue. Raison : "
                  ++ "SAFETY"
                  ++ ". Cela est souvent lié aux paramètres de sécurité.")%string).
Proof.
  apply (abnormal_stop_of_first_candidate stoppedForSafety
           {| content := Some {| parts := Some [textPart "Désolé"] |};
              finishReason := Some "SAFETY" |}
           [ {| content := None; finishReason := Some "STOP" |} ]
           "SAFETY").
  - intros (pf & reason & Hpf & _). discriminate Hpf.
  - reflexivity.
  - simpl. repeat constructor.
  - reflexivity.
  - discriminate.
  - discriminate.
Defined.

(** A response with neither block reason, image nor finish reason, whose
    text is [ sorry ] between spaces, is reported as returning no image,
    with the trimmed text quoted. *)
Example no_image_with_text :
  handleApiResponse
    {| promptFeedback := None;
       candidates := Some [ {| content := None; finishReason := None |} ];
       responseText := Some " sorry " |}
  = throwError ("Le modèle IA n'a pas retourné d'image. Le modèle a répondu avec le texte : "
                  ++ str dquote ++ "sorry" ++ str dquote)%string.
Proof. reflexivity. Qed.

(** A finish reason [STOP] is not an abnormal stop. *)
Example normal_stop_without_image :
  handleApiResponse
    {| promptFeedback := None;
       candidates := Some [ {| content := None; finishReason := Some "STOP" |};
                            {| content := None; finishReason := Some "SAFETY" |} ];
       responseText := None |}
  = throwError (noImageMessage None).
Proof. reflexivity. Qed.

End ResponseClassifier.

(** ** Strings: splitting and the MIME-type expression *)

Section StringFacts.
Import JS.
Local Open Scope string_scope.

Lemma append_assoc (a b c : string) : (a ++ b) ++ c = a ++ (b ++ c).
Proof. induction a as [|x a IH]; simpl; [reflexivity | now rewrite IH]. Qed.

Lemma containsChar_append (c : ascii) (a b : string) :
  containsChar c (a ++ b) = containsChar c a || containsChar c b.
Proof.
  induction a as [|x a IH]; simpl; [reflexivity|].
  rewrite IH. apply orb_assoc.
Qed.

Lemma prefix_char (c x : ascii) (rest : string) :
  prefix (str c) (String x rest) = Ascii.eqb x c.
Proof.
  unfold str. simpl. destruct (ascii_dec c x) as [->|Hne].
  - rewrite Ascii.eqb_refl. now destruct rest.
  - symmetry. apply Ascii.eqb_neq. congruence.
Qed.

(** Splitting on a single character. *)
Lemma split_char_cons (c x : ascii) (rest : string) :
  split (str c) (String x rest) =
  if Ascii.eqb x c then EmptyString :: split (str c) rest
  else match split (str c) rest with
       | seg :: segs => String x seg :: segs
       | [] => [str x]
       end.
Proof.
  unfold split. cbn [splitFrom]. rewrite prefix_char. reflexivity.
Qed.

Lemma split_without (c : ascii) (s : string) :
  containsChar c s = false -> split (str c) s = [s].
Proof.
  induction s as [|x s IH]; [reflexivity|].
  cbn [containsChar]. intros H. apply orb_false_iff in H as [Hx Hs].
  rewrite split_char_cons, Hx, (IH Hs). reflexivity.
Qed.

Lemma split_at_first (c : ascii) (h rest : string) :
  containsChar c h = false ->
  split (str c) (h ++ String c rest) = h :: split (str c) rest.
Proof.
  induction h as [|x h IH]; intros H.
  - cbn [append]. rewrite split_char_cons, Ascii.eqb_refl. reflexivity.
  - cbn [containsChar] in H. apply orb_false_iff in H as [Hx Hh].
    cbn [append]. rewrite split_char_cons, Hx, (IH Hh). reflexivity.
Qed.

Lemma split_nonempty (sep s : string) : split sep s <> [].
Proof.
  unfold split. generalize 0 as skip.
  induction s as [|x s IH]; intros skip; cbn [splitFrom]; [discriminate|].
  destruct skip; [|apply IH].
  destruct (prefix sep (String x s)); [discriminate|].
  destruct (splitFrom sep 0 s); discriminate.
Qed.

Lemma beforeFirst_exists (c : ascii) (d : string) :
  containsChar c d = true -> exists h, beforeFirst c d h.
Proof.
  induction d as [|x d IH]; cbn [containsChar]; [discriminate|].
  destruct (Ascii.eqb x c) eqn:E.
  - intros _. apply Ascii.eqb_eq in E as ->. exists EmptyString, d. auto.
  - cbn [orb]. intros H. destruct (IH H) as (h & rest & -> & Hh).
    exists (String x h), rest. split; [reflexivity|].
    cbn [containsChar]. now rewrite E, Hh.
Qed.

Lemma beforeFirst_contains (c : ascii) (d h : string) :
  beforeFirst c d h -> containsChar c d = true.
Proof.
  intros (rest & -> & _). rewrite containsChar_append. cbn [containsChar].
  rewrite Ascii.eqb_refl. apply orb_true_r.
Qed.

Lemma beforeFirst_split (c : ascii) (d h : string) :
  beforeFirst c d h ->
  exists second others, split (str c) d = h :: second :: others.
Proof.
  intros (rest & -> & Hh). rewrite (split_at_first _ _ _ Hh).
  destruct (split (str c) rest) as [|second others] eqn:E.
  - now apply split_nonempty in E.
  - eauto.
Qed.

(** A line terminator seen at the start of [String c u] is seen whatever
    follows [u], and one seen when a semicolon follows [u] lies in
    [String c u]. *)
Lemma isLineTerminatorAt_before_semicolon (c : ascii) (u post : string) :
  isLineTerminatorAt (String c (u ++ String semicolon post))
  = isLineTerminatorAt (String c u).
Proof.
  unfold isLineTerminatorAt.
  destruct u as [|c2 [|c3 u]]; cbn [append].
  - destruct post; cbn; now rewrite ?andb_false_r.
  - cbn. now rewrite ?andb_false_r.
  - reflexivity.
Qed.

Lemma lazyDotSemi_complete (t post : string) :
  containsChar semicolon t = false ->
  hasLineTerminator t = false ->
  lazyDotSemi (t ++ String semicolon post) = Some t.
Proof.
  induction t as [|c t IH]; intros Hs Hl.
  - cbn. reflexivity.
  - cbn [containsChar] in Hs. apply orb_false_iff in Hs as [Hc Hs].
    cbn [hasLineTerminator] in Hl. apply orb_false_iff in Hl as [Hc' Hl].
    cbn [append lazyDotSemi]. rewrite Hc.
    rewrite isLineTerminatorAt_before_semicolon, Hc', (IH Hs Hl). reflexivity.
Qed.

Lemma lazyDotSemi_sound (s t : string) :
  lazyDotSemi s = Some t ->
  exists post,
    s = t ++ String semicolon post /\
    containsChar semicolon t = false /\
    hasLineTerminator t = false.
Proof.
  revert t. induction s as [|c s IH]; intros t; cbn [lazyDotSemi]; [discriminate|].
  destruct (Ascii.eqb c semicolon) eqn:Ec.
  - intros [= <-]. apply Ascii.eqb_eq in Ec as ->. exists s. auto.
  - destruct (isLineTerminatorAt (String c s)) eqn:El; [discriminate|].
    destruct (lazyDotSemi s) as [u|] eqn:Eu; [|discriminate].
    cbn. intros [= <-]. destruct (IH u eq_refl) as (post & -> & Hs & Hl).
    exists post. split; [reflexivity|]. cbn [containsChar hasLineTerminator].
    rewrite Ec, Hs, Hl.
    rewrite isLineTerminatorAt_before_semicolon in El. now rewrite El.
Qed.

Lemma capturesAt_nil (pre t : string) : ~ capturesAt EmptyString pre t.
Proof. intros (post & H & _). destruct pre; discriminate. Qed.

Lemma capturesAt_cons (c : ascii) (rest pre t : string) :
  capturesAt (String c rest) pre t <->
  (pre = EmptyString /\ c = colon /\ lazyDotSemi rest = Some t) \/
  (exists pre', pre = String c pre' /\ capturesAt rest pre' t).
Proof.
  split.
  - intros (post & H & Hs & Hl). destruct pre as [|x pre]; cbn [append] in H.
    + left. injection H as -> ->. repeat split; trivial.
      now apply lazyDotSemi_complete.
    + right. injection H as -> ->. exists pre. split; [reflexivity|].
      exists post. auto.
  - intros [(-> & -> & H) | (pre' & -> & post & -> & Hs & Hl)].
    + destruct (lazyDotSemi_sound _ _ H) as (post & -> & Hs & Hl).
      exists post. auto.
    + exists post. auto.
Qed.

Lemma matchMime_None (h : string) : matchMime h = None <-> ~ matches h.
Proof.
  induction h as [|c h IH]; cbn [matchMime].
  - split; [|reflexivity]. intros _ (pre & t & H). now apply capturesAt_nil in H.
  - assert (Hshift : matches h -> matches (String c h)).
    { intros (pre & t & H). exists (String c pre), t.
      apply capturesAt_cons. right. eauto. }
    destruct (Ascii.eqb c colon) eqn:Ec.
    + apply Ascii.eqb_eq in Ec as ->.
      destruct (lazyDotSemi h) as [g|] eqn:Eg.
      * split; [discriminate|]. intros H. exfalso. apply H.
        exists EmptyString, g. apply capturesAt_cons. left. auto.
      * rewrite IH. split; intros H; [|tauto].
        intros (pre & t & Hc). apply capturesAt_cons in Hc
          as [(_ & _ & Hc) | (pre' & _ & Hc)]; [congruence|].
        apply H. exists pre', t. exact Hc.
    + rewrite IH. split; intros H; [|tauto].
      intros (pre & t & Hc). apply capturesAt_cons in Hc
        as [(_ & -> & _) | (pre' & _ & Hc)]; [discriminate|].
      apply H. exists pre', t. exact Hc.
Qed.

Lemma firstCapture_shift (c : ascii) (h t : string) :
  (forall g, ~ capturesAt (String c h) EmptyString g) ->
  firstCapture (String c h) t <-> firstCapture h t.
Proof.
  intros Hno. split.
  - intros (pre & Hc & Hmin).
    apply capturesAt_cons in Hc as [(-> & Hc) | (pre' & -> & Hc)].
    + exfalso. apply (Hno t). apply capturesAt_cons. left. tauto.
    + exists pre'. split; [exact Hc|]. intros p g Hg.
      assert (Hg' : capturesAt (String c h) (String c p) g)
        by (apply capturesAt_cons; right; eauto).
      apply Hmin in Hg'. cbn in Hg'. lia.
  - intros (pre & Hc & Hmin). exists (String c pre). split.
    + apply capturesAt_cons. right. eauto.
    + intros p g Hg. apply capturesAt_cons in Hg as [(-> & Hg) | (p' & -> & Hg)].
      * exfalso. apply (Hno g). apply capturesAt_cons. left. tauto.
      * apply Hmin in Hg. cbn. lia.
Qed.

Lemma matchMime_Some (h t : string) : matchMime h = Some t <-> firstCapture h t.
Proof.
  induction h as [|c h IH]; cbn [matchMime].
  - split; [discriminate|]. intros (pre & H & _). now apply capturesAt_nil in H.
  - destruct (Ascii.eqb c colon) eqn:Ec.
    + apply Ascii.eqb_eq in Ec as ->.
      destruct (lazyDotSemi h) as [g|] eqn:Eg.
      * assert (Hg : capturesAt (String colon h) EmptyString g)
          by (apply capturesAt_cons; left; auto).
        split.
        -- intros [= <-]. exists EmptyString. split; [exact Hg|].
           intros; cbn; lia.
        -- intros (pre & Hc & Hmin). apply Hmin in Hg. cbn in Hg.
           destruct pre; [|cbn in Hg; lia].
           apply capturesAt_cons in Hc as [(_ & _ & Hc) | (p & Hp & _)];
             congruence.
      * rewrite IH. symmetry. apply firstCapture_shift.
        intros g Hg. apply capturesAt_cons in Hg as [(_ & _ & Hg) | (p & Hp & _)];
          congruence.
    + rewrite IH. symmetry. apply firstCapture_shift.
      intros g Hg. apply capturesAt_cons in Hg as [(_ & -> & _) | (p & Hp & _)];
        discriminate.
Qed.

End StringFacts.

(** ** The data-URL codec *)

Section DataUrlCodec.
Import JS GeminiService.
Local Open Scope string_scope.

Lemma dataUrlToParts_without_comma (d : string) :
  containsChar comma d = false ->
  dataUrlToParts d = throwError "Invalid data URL".
Proof.
  intros H. unfold dataUrlToParts.
  change "," with (str comma). now rewrite (split_without _ _ H).
Qed.

Lemma dataUrlToParts_with_comma (d h : string) :
  beforeFirst comma d h ->
  exists second others,
    split (str comma) d = (h :: second :: others)%list /\
    dataUrlToParts d =
      match matchMime h with
      | Some group1 =>
          if truthy group1 then Return {| mimeType := group1; data := second |}
          else throwError "Could not parse MIME type from data URL"
      | None => throwError "Could not parse MIME type from data URL"
      end.
Proof.
  intros H. destruct (beforeFirst_split _ _ _ H) as (second & others & E).
  exists second, others. split; [exact E|].
  unfold dataUrlToParts. change "," with (str comma). rewrite E. cbn.
  destruct (matchMime h) as [g|]; [|reflexivity].
  now destruct (truthy g).
Qed.

(** C4, as stated: every data URL [data:<mime>;base64,<payload>] decodes
    to the pair of [mime] and [payload].  It fails for a media type with a
    parameter: the expression stops at the first semicolon. *)
Lemma decode_of_any_data_url_counterexample :
  ~ (forall mime payload,
       dataUrlToParts ("data:" ++ mime ++ ";base64," ++ payload)
       = Return {| mimeType := mime; data := payload |}).
Proof.
  intros H. specialize (H "text/plain;charset=utf-8" "SGVsbG8=").
  vm_compute in H. discriminate H.
Qed.

(** C4, amended.  When [mime] is not empty and holds no comma, semicolon
    or line terminator, and [payload] holds no comma (as no base64 text
    does), the data URL [data:<mime>;base64,<payload>] decodes to the pair
    of [mime] and [payload], and encoding that pair again gives the data
    URL back. *)
Theorem decode_of_plain_data_url :
  forall mime payload,
    mime <> "" ->
    containsChar comma mime = false ->
    containsChar semicolon mime = false ->
    hasLineTerminator mime = false ->
    containsChar comma payload = false ->
    let d := "data:" ++ mime ++ ";base64," ++ payload in
    dataUrlToParts d = Return {| mimeType := mime; data := payload |} /\
    forall b, dataUrlToParts d = Return b ->
              "data:" ++ mimeType b ++ ";base64," ++ data b = d.
Proof.
  intros mime payload Hne Hc Hs Hl Hp d.
  assert (E : dataUrlToParts d = Return {| mimeType := mime; data := payload |}).
  { assert (Hh : beforeFirst comma d ("data:" ++ mime ++ ";base64")).
    { exists payload. split.
      - unfold d. now rewrite !append_assoc.
      - rewrite !containsChar_append, Hc. reflexivity. }
    destruct (dataUrlToParts_with_comma _ _ Hh) as (second & others & Es & ->).
    assert (Hsplit : split (str comma) d
                     = ("data:" ++ mime ++ ";base64") :: [payload]).
    { replace d with (("data:" ++ mime ++ ";base64") ++ String comma payload)
        by (unfold d; now rewrite !append_assoc).
      rewrite split_at_first by (rewrite !containsChar_append, Hc; reflexivity).
      now rewrite (split_without _ _ Hp). }
    rewrite Hsplit in Es. injection Es as <- <-.
    cbn -[lazyDotSemi]. change ";base64" with (String semicolon "base64").
    rewrite (lazyDotSemi_complete _ _ Hs Hl).
    apply truthy_nonempty in Hne. now rewrite Hne. }
  split; [exact E|]. intros b Hb. rewrite E in Hb. injection Hb as <-. reflexivity.
Qed.

Lemma decode_of_plain_data_url_witness :
  dataUrlToParts "data:image/png;base64,iVBORw0KGgo="
    = Return {| mimeType := "image/png"; data := "iVBORw0KGgo=" |} /\
  forall b, dataUrlToParts "data:image/png;base64,iVBORw0KGgo=" = Return b ->
            "data:" ++ mimeType b ++ ";base64," ++ data b
            = "data:image/png;base64,iVBORw0KGgo=".
Proof.
  apply (decode_of_plain_data_url "image/png" "iVBORw0KGgo=").
  - discriminate.
  - reflexivity.
  - reflexivity.
  - reflexivity.
  - reflexivity.
Defined.

(** C5, as stated: decoding fails exactly when the input has no comma or
    the segment before its first comma holds no MIME-type pattern.  It also
    fails when the leftmost colon is directly followed by a semicolon,
    although a pattern with a type comes later. *)
Lemma fails_iff_no_comma_or_no_pattern_counterexample :
  let d := "data:;x:image/png;base64,AAAA" in
  ~ (throws (dataUrlToParts d) <->
     containsChar comma d = false \/
     exists h, beforeFirst comma d h /\ ~ hasMimePattern h).
Proof.
  intros d [Hfails _].
  destruct Hfails as [Hc | (h & Hh & Hno)].
  - exists (ErrorObject "Could not parse MIME type from data URL"). reflexivity.
  - discriminate Hc.
  - destruct (beforeFirst_split _ _ _ Hh) as (second & others & E).
    vm_compute in E. injection E as <- _ _.
    apply Hno. exists "data:;x", "image/png". split; [|discriminate].
    exists "base64". repeat split.
Qed.

(** C5, amended.  Decoding throws exactly when the input has no comma, or
    the expression [/:(.*?);/] finds no match in the segment before the
    first comma, or its leftmost match captures an empty type.  So it
    throws for every input without a comma and for every input whose
    header holds no MIME-type pattern, and then no image is produced. *)
Theorem dataUrlToParts_fails_exactly_when :
  forall d,
    (throws (dataUrlToParts d) <->
       containsChar comma d = false \/
       exists h, beforeFirst comma d h /\ (~ matches h \/ firstCapture h "")) /\
    (containsChar comma d = false -> throws (dataUrlToParts d)) /\
    (forall h, beforeFirst comma d h -> ~ hasMimePattern h ->
               throws (dataUrlToParts d)) /\
    (throws (dataUrlToParts d) -> forall b, dataUrlToParts d <> Return b).
Proof.
  intros d.
  assert (Hheader : forall h, beforeFirst comma d h ->
            (throws (dataUrlToParts d) <-> ~ matches h \/ firstCapture h "")).
  { intros h Hh.
    destruct (dataUrlToParts_with_comma _ _ Hh) as (second & others & _ & ->).
    destruct (matchMime h) as [g|] eqn:Eg.
    - apply matchMime_Some in Eg. destruct g as [|c g]; cbn [truthy].
      + split; [tauto|]. intros _. eexists. reflexivity.
      + split.
        * intros (e & He). discriminate He.
        * intros [Hno | Hempty].
          -- exfalso. apply Hno. destruct Eg as (pre & Hc & _).
             now exists pre, (String c g).
          -- apply matchMime_Some in Eg, Hempty. congruence.
    - split; [|intros _; eexists; reflexivity].
      intros _. left. now apply matchMime_None. }
  assert (Hnocomma : containsChar comma d = false -> throws (dataUrlToParts d)).
  { intros H. rewrite (dataUrlToParts_without_comma _ H). eexists. reflexivity. }
  repeat split.
  - intros Ht. destruct (containsChar comma d) eqn:Ec; [right | now left].
    destruct (beforeFirst_exists _ _ Ec) as (h & Hh).
    exists h. split; [exact Hh|]. now apply Hheader.
  - intros [Hc | (h & Hh & Hm)]; [now apply Hnocomma | now apply (Hheader h)].
  - exact Hnocomma.
  - intros h Hh Hno. apply (Hheader h Hh).
    destruct (matchMime h) as [g|] eqn:Eg.
    + right. apply matchMime_Some. destruct g as [|c g]; [exact Eg|].
      exfalso. apply Hno. apply matchMime_Some in Eg as (pre & Hc & _).
      exists pre, (String c g). split; [exact Hc | discriminate].
    + left. now apply matchMime_None.
  - intros (e & ->) b. discriminate.
Qed.

Example decode_without_comma :
  dataUrlToParts "data:image/png;base64" = throwError "Invalid data URL".
Proof. reflexivity. Qed.

Example decode_without_mime :
  dataUrlToParts "data:,Hello" = throwError "Could not parse MIME type from data URL".
Proof. reflexivity. Qed.

Example decode_with_empty_mime :
  dataUrlToParts "data:;base64,AAAA"
  = throwError "Could not parse MIME type from data URL".
Proof. reflexivity. Qed.

Example decode_keeps_the_second_segment_only :
  dataUrlToParts "data:image/png;base64,AAAA,BBBB"
  = Return {| mimeType := "image/png"; data := "AAAA" |}.
Proof. reflexivity. Qed.

End DataUrlCodec.

(** ** The garment-application request *)

Section GenerationPipeline.
Import JS GeminiService.

Lemma blob_eta (b : Blob) : {| mimeType := mimeType b; data := data b |} = b.
Proof. now destruct b. Qed.

Lemma run_generate (w : World) (ps : list Part) :
  requestsOf w (generate ps)
  = [ {| requestModel := model; contents := {| parts := Some ps |} |} ].
Proof.
  unfold requestsOf, generate. cbn.
  destruct (remoteModel w _); reflexivity.
Qed.

(** C6.  When the model data URL decodes and the garment file is read as a
    data URL that decodes, applying the garment sends exactly one request
    to the model; its parts are the model image, then the garment image,
    then the instruction, so its inline images are [model; garment] in
    that order. *)
Theorem try_on_sends_model_then_garment :
  forall (w : World) modelImageUrl garmentImage modelImage garmentUrl garment,
    dataUrlToParts modelImageUrl = Return modelImage ->
    fileReader w garmentImage = Return garmentUrl ->
    dataUrlToParts garmentUrl = Return garment ->
    exists request,
      requestsOf w (generateVirtualTryOnImage modelImageUrl garmentImage) = [request] /\
      requestModel request = "gemini-2.5-flash-image"%string /\
      parts (contents request)
        = Some [inlinePart modelImage; inlinePart garment; textPart tryOnPrompt] /\
      inlineImages request = [modelImage; garment].
Proof.
  intros w modelImageUrl garmentImage modelImage garmentUrl garment Hm Hr Hg.
  exists {| requestModel := model;
            contents := {| parts := Some [inlinePart modelImage; inlinePart garment;
                                          textPart tryOnPrompt] |} |}.
  repeat split.
  unfold generateVirtualTryOnImage, dataUrlToPart, fileToPart.
  rewrite Hm. cbn [bind andThen]. rewrite blob_eta.
  unfold requestsOf. cbn [run]. rewrite Hr. cbn [andThen run].
  rewrite Hg. cbn [bind andThen]. rewrite blob_eta.
  apply run_generate.
Qed.

(** Whatever the inputs, at most one request is sent. *)
Lemma try_on_sends_at_most_one_request (w : World) modelImageUrl garmentImage :
  List.length (requestsOf w (generateVirtualTryOnImage modelImageUrl garmentImage)) <= 1.
Proof.
  unfold generateVirtualTryOnImage, dataUrlToPart, fileToPart, requestsOf.
  destruct (dataUrlToParts modelImageUrl) as [m|e]; cbn [bind andThen run];
    [|cbn; lia].
  destruct (fileReader w garmentImage) as [url|e]; cbn [andThen run fst];
    [|cbn; lia].
  destruct (dataUrlToParts url) as [g|e]; cbn [bind andThen run fst]; [|cbn; lia].
  fold (requestsOf w (generate [inlinePart {| mimeType := mimeType m; data := data m |};
                                inlinePart {| mimeType := mimeType g; data := data g |};
                                textPart tryOnPrompt])).
  rewrite run_generate. cbn. lia.
Qed.

Lemma try_on_sends_model_then_garment_witness :
  exists request,
    requestsOf studio
      (generateVirtualTryOnImage "data:image/png;base64,iVBORw0KGgo="
         {| fileName := "robe.jpg"; fileType := "image/jpeg" |}) = [request] /\
    requestModel request = "gemini-2.5-flash-image"%string /\
    parts (contents request)
      = Some [inlinePart (mkBlob "image/png" "iVBORw0KGgo=");
              inlinePart (mkBlob "image/jpeg" "/9j/4AAQSkZJRg==");
              textPart tryOnPrompt] /\
    inlineImages request
      = [mkBlob "image/png" "iVBORw0KGgo="; mkBlob "image/jpeg" "/9j/4AAQSkZJRg=="].
Proof.
  apply (try_on_sends_model_then_garment studio
           "data:image/png;base64,iVBORw0KGgo="
           {| fileName := "robe.jpg"; fileType := "image/jpeg" |}
           (mkBlob "image/png" "iVBORw0KGgo=")
           "data:image/jpeg;base64,/9j/4AAQSkZJRg=="
           (mkBlob "image/jpeg" "/9j/4AAQSkZJRg==")).
  - reflexivity.
  - reflexivity.
  - reflexivity.
Defined.

End GenerationPipeline.

(** ** [trim] leaves no white space at either end *)

Section Trim.
Import JSTrim.

Lemma dropString_length (n : nat) (s : string) :
  String.length (dropString n s) <= String.length s.
Proof.
  revert s. induction n as [|n IH]; intros s; [destruct s; cbn; lia|].
  destruct s as [|c s]; cbn; [lia|]. specialize (IH s). lia.
Qed.

Lemma trimStartFuel_done (fuel : nat) (s : string) :
  String.length s <= fuel -> whiteSpaceAt (trimStartFuel fuel s) = 0.
Proof.
  revert s. induction fuel as [|f IH]; intros s Hf.
  - destruct s; [reflexivity | cbn in Hf; lia].
  - cbn [trimStartFuel]. destruct (whiteSpaceAt s) as [|n] eqn:E; [exact E|].
    apply IH. destruct s as [|c s]; [discriminate E|].
    cbn [dropString]. pose proof (dropString_length n s). cbn in Hf. lia.
Qed.

Lemma trimStart_done (s : string) : whiteSpaceAt (trimStart s) = 0.
Proof. apply trimStartFuel_done. lia. Qed.

Lemma trimEndFuel_done (fuel : nat) (r : list ascii) :
  List.length r <= fuel -> whiteSpaceAtEnd (trimEndFuel fuel r) = 0.
Proof.
  revert r. induction fuel as [|f IH]; intros r Hf.
  - destruct r; [reflexivity | cbn in Hf; lia].
  - cbn [trimEndFuel]. destruct (whiteSpaceAtEnd r) as [|n] eqn:E; [exact E|].
    apply IH. destruct r as [|c r]; [discriminate E|].
    cbn [skipn]. rewrite length_skipn. cbn in Hf. lia.
Qed.

Lemma trim_ascii_example :
  trim (String JS.TAB " Je ne peux pas. " ++ String JS.LF EmptyString)%string
  = "Je ne peux pas."%string.
Proof. reflexivity. Qed.

End Trim.

(** ** [JSON.parse] is total *)

Section JsonTotal.
Import JS JSON.
Local Open Scope string_scope.

Lemma skipWs_length (s : string) : String.length (skipWs s) <= String.length s.
Proof.
  induction s as [|c s IH]; cbn; [lia|]. destruct (isWs c); cbn; lia.
Qed.

Lemma takeDigits_length (s : string) : String.length (snd (takeDigits s)) <= String.length s.
Proof.
  induction s as [|c s IH]; cbn; [lia|].
  destruct (isDigit c); [|cbn; lia].
  destruct (takeDigits s); cbn in *; lia.
Qed.

Lemma dropString_prefix (w s : string) :
  prefix w s = true -> String.length (JSTrim.dropString (String.length w) s) + String.length w = String.length s.
Proof.
  revert s. induction w as [|a w IH]; intros s.
  - intros _. destruct s; cbn; lia.
  - destruct s as [|b s]; cbn; [discriminate|].
    destruct (ascii_dec a b); [|discriminate].
    intros H. specialize (IH s H). lia.
Qed.

Lemma parseKeyword_length (w : string) (v : Json) (s : string) (j : Json) (r : string) :
  w <> "" -> parseKeyword w v s = Parsed j r -> String.length r < String.length s.
Proof.
  intros Hw. unfold parseKeyword. destruct (prefix w s) eqn:E; [|discriminate].
  intros [= _ <-]. apply dropString_prefix in E.
  assert (0 < String.length w) by (destruct w; [congruence | cbn; lia]). lia.
Qed.

Lemma parseInt_length (s i r : string) : parseInt s = Some (i, r) -> String.length r < String.length s.
Proof.
  unfold parseInt. destruct s as [|c s]; [discriminate|].
  destruct (Ascii.eqb c "0"); [intros [= _ <-]; cbn; lia|].
  destruct (isDigit c); [|discriminate].
  pose proof (takeDigits_length s) as H. destruct (takeDigits s) as [ds r'].
  intros [= _ <-]. cbn in *. lia.
Qed.

Lemma parseFrac_length (s i r : string) : parseFrac s = Some (i, r) -> String.length r <= String.length s.
Proof.
  unfold parseFrac. destruct s as [|c s]; [intros [= _ <-]; lia|].
  destruct (Ascii.eqb c "."); [|intros [= _ <-]; lia].
  pose proof (takeDigits_length s) as H. destruct (takeDigits s) as [[|d ds] r'];
    [discriminate|]. intros [= _ <-]. cbn in *. lia.
Qed.

Lemma parseExp_length (s i r : string) : parseExp s = Some (i, r) -> String.length r <= String.length s.
Proof.
  unfold parseExp. destruct s as [|c s]; [intros [= _ <-]; lia|].
  destruct (Ascii.eqb c "e" || Ascii.eqb c "E"); [|intros [= _ <-]; lia].
  assert (H : forall sign afterSign,
             String.length afterSign <= String.length s ->
             match takeDigits afterSign with
             | (EmptyString, _) => None
             | (ds, r0) => Some (String c (sign ++ ds), r0)
             end = Some (i, r) -> String.length r <= String.length (String c s)).
  { intros sign a Ha. pose proof (takeDigits_length a) as H.
    destruct (takeDigits a) as [[|d ds] r']; [discriminate|].
    intros [= _ <-]. cbn in *. lia. }
  destruct s as [|g s']; [apply H; lia|].
  destruct (Ascii.eqb g "+" || Ascii.eqb g "-"); apply H; cbn; lia.
Qed.

Lemma parseNumber_length (s : string) (j : Json) (r : string) :
  parseNumber s = Parsed j r -> String.length r < String.length s.
Proof.
  unfold parseNumber.
  assert (H : forall sign s0, String.length s0 <= String.length s ->
            match parseInt s0 with
            | None => SyntaxError
            | Some (int, s1) =>
                match parseFrac s1 with
                | None => SyntaxError
                | Some (frac, s2) =>
                    match parseExp s2 with
                    | None => SyntaxError
                    | Some (exp, s3) => Parsed (JNumber (sign ++ int ++ frac ++ exp)) s3
                    end
                end
            end = Parsed j r -> String.length r < String.length s).
  { intros sign s0 H0.
    destruct (parseInt s0) as [[i s1]|] eqn:Ei; [|discriminate].
    destruct (parseFrac s1) as [[f s2]|] eqn:Ef; [|discriminate].
    destruct (parseExp s2) as [[e s3]|] eqn:Ee; [|discriminate].
    intros [= _ <-]. apply parseInt_length in Ei. apply parseFrac_length in Ef.
    apply parseExp_length in Ee. lia. }
  destruct s as [|c s']; [apply H; lia|].
  destruct (Ascii.eqb c "-"); apply H; cbn; lia.
Qed.

Lemma parseNumber_fuel (s : string) : parseNumber s <> OutOfFuel.
Proof.
  unfold parseNumber.
  destruct (match s with
            | EmptyString => (EmptyString, s)
            | String c rest => if Ascii.eqb c "-" then (str c, rest) else (EmptyString, s)
            end) as [sign s0].
  destruct (parseInt s0) as [[i s1]|]; [|discriminate].
  destruct (parseFrac s1) as [[f s2]|]; [|discriminate].
  destruct (parseExp s2) as [[e s3]|]; discriminate.
Qed.

Lemma hex4_length (s : string) (u : N) (r : string) :
  hex4 s = Some (u, r) -> String.length r + 4 = String.length s.
Proof.
  unfold hex4. destruct s as [|a [|b [|c [|d s]]]]; try discriminate.
  destruct (hexDigit a), (hexDigit b), (hexDigit c), (hexDigit d); try discriminate.
  intros [= _ <-]. cbn. lia.
Qed.

Lemma lowSurrogate_length (s : string) (u : N) (r : string) :
  lowSurrogate s = Some (u, r) -> String.length r < String.length s.
Proof.
  unfold lowSurrogate. destruct s as [|b [|u' s]]; try discriminate.
  destruct (Ascii.eqb b backslash && Ascii.eqb u' "u"); [|discriminate].
  destruct (hex4 s) as [[lo r']|] eqn:E; [|discriminate].
  destruct ((56320 <=? lo)%N && (lo <=? 57343)%N); [|discriminate].
  intros [= _ <-]. apply hex4_length in E. cbn. lia.
Qed.

Lemma mapParse_Parsed {A B : Type} (f : A -> B) (p : Parse A) (b : B) (r : string) :
  mapParse f p = Parsed b r -> exists a, p = Parsed a r.
Proof. destruct p; cbn; try discriminate. intros [= _ <-]. eauto. Qed.

Lemma mapParse_fuel {A B : Type} (f : A -> B) (p : Parse A) :
  p <> OutOfFuel -> mapParse f p <> OutOfFuel.
Proof. destruct p; cbn; congruence. Qed.

Lemma parseChars_length (fuel : nat) (s t r : string) :
  parseChars fuel s = Parsed t r -> String.length r < String.length s.
Proof.
  revert s t. induction fuel as [|f IH]; intros s t; cbn [parseChars]; [discriminate|].
  destruct s as [|c rest]; [discriminate|].
  destruct (Ascii.eqb c dquote); [intros [= _ <-]; cbn; lia|].
  destruct (Ascii.eqb c backslash).
  - destruct rest as [|e rest2]; [discriminate|].
    destruct (Ascii.eqb e "u").
    + destruct (hex4 rest2) as [[hi rest3]|] eqn:Eh; [|discriminate].
      apply hex4_length in Eh.
      destruct (if ((55296 <=? hi)%N && (hi <=? 56319)%N)
                then lowSurrogate rest3 else None) as [[lo rest4]|] eqn:El.
      * destruct ((55296 <=? hi)%N && (hi <=? 56319)%N); [|discriminate].
        apply lowSurrogate_length in El.
        intros H. apply mapParse_Parsed in H as (t0 & H). apply IH in H. cbn. lia.
      * intros H. apply mapParse_Parsed in H as (t0 & H). apply IH in H. cbn. lia.
    + destruct (simpleEscape e); [|discriminate].
      intros H. apply mapParse_Parsed in H as (t0 & H). apply IH in H. cbn. lia.
  - destruct (code c <? 32)%N; [discriminate|].
    intros H. apply mapParse_Parsed in H as (t0 & H). apply IH in H. cbn. lia.
Qed.

Lemma parseChars_fuel (fuel : nat) (s : string) :
  String.length s < fuel -> parseChars fuel s <> OutOfFuel.
Proof.
  revert s. induction fuel as [|f IH]; intros s Hf; [lia|]. cbn [parseChars].
  destruct s as [|c rest]; [discriminate|]. cbn in Hf.
  destruct (Ascii.eqb c dquote); [discriminate|].
  destruct (Ascii.eqb c backslash).
  - destruct rest as [|e rest2]; [discriminate|]. cbn in Hf.
    destruct (Ascii.eqb e "u").
    + destruct (hex4 rest2) as [[hi rest3]|] eqn:Eh; [|discriminate].
      apply hex4_length in Eh.
      destruct (if ((55296 <=? hi)%N && (hi <=? 56319)%N)
                then lowSurrogate rest3 else None) as [[lo rest4]|] eqn:El.
      * destruct ((55296 <=? hi)%N && (hi <=? 56319)%N); [|discriminate].
        apply lowSurrogate_length in El. apply mapParse_fuel, IH. lia.
      * apply mapParse_fuel, IH. lia.
    + destruct (simpleEscape e); [|discriminate]. apply mapParse_fuel, IH. lia.
  - destruct (code c <? 32)%N; [discriminate|]. apply mapParse_fuel, IH. lia.
Qed.

Lemma parseString_length (s t r : string) : parseString s = Parsed t r -> String.length r < String.length s.
Proof. apply parseChars_length. Qed.

Lemma parseString_fuel (s : string) : parseString s <> OutOfFuel.
Proof. apply parseChars_fuel. lia. Qed.

Lemma skipWs_cons_length (s : string) (c : ascii) (r : string) :
  skipWs s = String c r -> String.length r < String.length s.
Proof.
  intros H. pose proof (skipWs_length s) as L. rewrite H in L. cbn in L. lia.
Qed.

Lemma parse_lengths (fuel : nat) :
  (forall s v r, parseValue fuel s = Parsed v r -> String.length r < String.length s) /\
  (forall s vs r, parseElements fuel s = Parsed vs r -> String.length r < String.length s) /\
  (forall s ms r, parseMembers fuel s = Parsed ms r -> String.length r < String.length s).
Proof.
  induction fuel as [|f (IHv & IHe & IHm)];
    [repeat split; intros; discriminate|].
  repeat split.
  - intros s v r. cbn [parseValue].
    destruct s as [|c rest]; [discriminate|].
    destruct (Ascii.eqb c "{").
    { destruct (skipWs rest) as [|c1 r1] eqn:Ews; [discriminate|].
      apply skipWs_cons_length in Ews as L.
      destruct (Ascii.eqb c1 "}"); [intros [= _ <-]; cbn; lia|].
      intros H. apply mapParse_Parsed in H as (ms & H). apply IHm in H.
      cbn in *. lia. }
    destruct (Ascii.eqb c "[").
    { destruct (skipWs rest) as [|c1 r1] eqn:Ews; [discriminate|].
      apply skipWs_cons_length in Ews as L.
      destruct (Ascii.eqb c1 "]"); [intros [= _ <-]; cbn; lia|].
      intros H. apply mapParse_Parsed in H as (vs & H). apply IHe in H.
      cbn in *. lia. }
    destruct (Ascii.eqb c dquote).
    { intros H. apply mapParse_Parsed in H as (t & H).
      apply parseString_length in H. cbn. lia. }
    destruct (Ascii.eqb c "t"); [apply parseKeyword_length; discriminate|].
    destruct (Ascii.eqb c "f"); [apply parseKeyword_length; discriminate|].
    destruct (Ascii.eqb c "n"); [apply parseKeyword_length; discriminate|].
    apply parseNumber_length.
  - intros s vs r. cbn [parseElements].
    destruct (parseValue f s) as [v r0| |] eqn:Ev; try discriminate.
    apply IHv in Ev.
    destruct (skipWs r0) as [|c r1] eqn:Ews; [discriminate|].
    apply skipWs_cons_length in Ews as L.
    destruct (Ascii.eqb c comma).
    + intros H. apply mapParse_Parsed in H as (vs' & H). apply IHe in H.
      pose proof (skipWs_length r1). lia.
    + destruct (Ascii.eqb c "]"); [|discriminate]. intros [= _ <-]. lia.
  - intros s ms r. cbn [parseMembers].
    destruct s as [|q afterQuote]; [discriminate|].
    destruct (negb (Ascii.eqb q dquote)); [discriminate|].
    destruct (parseString afterQuote) as [key r0| |] eqn:Ek; try discriminate.
    apply parseString_length in Ek.
    destruct (skipWs r0) as [|c r1] eqn:Ews; [discriminate|].
    apply skipWs_cons_length in Ews as L.
    destruct (negb (Ascii.eqb c colon)); [discriminate|].
    destruct (parseValue f (skipWs r1)) as [v r2| |] eqn:Ev; try discriminate.
    apply IHv in Ev. pose proof (skipWs_length r1).
    destruct (skipWs r2) as [|d r3] eqn:Ews2; [discriminate|].
    apply skipWs_cons_length in Ews2 as L2.
    destruct (Ascii.eqb d comma).
    + intros H'. apply mapParse_Parsed in H' as (ms' & H'). apply IHm in H'.
      pose proof (skipWs_length r3). cbn. lia.
    + destruct (Ascii.eqb d "}"); [|discriminate]. intros [= _ <-]. cbn. lia.
Qed.

Lemma parse_fuel (fuel : nat) :
  (forall s, 2 * String.length s + 1 <= fuel -> parseValue fuel s <> OutOfFuel) /\
  (forall s, 2 * String.length s + 2 <= fuel -> parseElements fuel s <> OutOfFuel) /\
  (forall s, 2 * String.length s + 2 <= fuel -> parseMembers fuel s <> OutOfFuel).
Proof.
  induction fuel as [|f (IHv & IHe & IHm)]; [repeat split; intros; lia|].
  repeat split.
  - intros s Hf. cbn [parseValue].
    destruct s as [|c rest]; [discriminate|]. cbn [String.length] in Hf.
    destruct (Ascii.eqb c "{").
    { destruct (skipWs rest) as [|c1 r1] eqn:Ews; [discriminate|].
      pose proof (skipWs_length rest) as L. rewrite Ews in L.
      destruct (Ascii.eqb c1 "}"); [discriminate|].
      apply mapParse_fuel, IHm. lia. }
    destruct (Ascii.eqb c "[").
    { destruct (skipWs rest) as [|c1 r1] eqn:Ews; [discriminate|].
      pose proof (skipWs_length rest) as L. rewrite Ews in L.
      destruct (Ascii.eqb c1 "]"); [discriminate|].
      apply mapParse_fuel, IHe. lia. }
    destruct (Ascii.eqb c dquote); [apply mapParse_fuel, parseString_fuel|].
    unfold parseKeyword.
    destruct (Ascii.eqb c "t"); [destruct (prefix _ _); discriminate|].
    destruct (Ascii.eqb c "f"); [destruct (prefix _ _); discriminate|].
    destruct (Ascii.eqb c "n"); [destruct (prefix _ _); discriminate|].
    apply parseNumber_fuel.
  - intros s Hf. cbn [parseElements].
    destruct (parseValue f s) as [v r0| |] eqn:Ev; [|discriminate|].
    + apply (proj1 (parse_lengths f)) in Ev.
      destruct (skipWs r0) as [|c r1] eqn:Ews; [discriminate|].
      apply skipWs_cons_length in Ews as L.
      destruct (Ascii.eqb c comma).
      * apply mapParse_fuel, IHe. pose proof (skipWs_length r1). lia.
      * destruct (Ascii.eqb c "]"); discriminate.
    + exfalso. revert Ev. apply IHv. lia.
  - intros s Hf. cbn [parseMembers].
    destruct s as [|q afterQuote]; [discriminate|]. cbn [String.length] in Hf.
    destruct (negb (Ascii.eqb q dquote)); [discriminate|].
    destruct (parseString afterQuote) as [key r0| |] eqn:Ek; [|discriminate|].
    + apply parseString_length in Ek.
      destruct (skipWs r0) as [|c r1] eqn:Ews; [discriminate|].
      apply skipWs_cons_length in Ews as L.
      destruct (negb (Ascii.eqb c colon)); [discriminate|].
      pose proof (skipWs_length r1).
      destruct (parseValue f (skipWs r1)) as [v r2| |] eqn:Ev; [|discriminate|].
      * apply (proj1 (parse_lengths f)) in Ev.
        destruct (skipWs r2) as [|d r3] eqn:Ews2; [discriminate|].
        apply skipWs_cons_length in Ews2 as L2.
        destruct (Ascii.eqb d comma).
        -- apply mapParse_fuel, IHm. pose proof (skipWs_length r3). lia.
        -- destruct (Ascii.eqb d "}"); discriminate.
      * exfalso. revert Ev. apply IHv. lia.
    + exfalso. revert Ek. apply parseString_fuel.
Qed.

(** The fuel that [parse] gives is enough for every text: running out of
    fuel is never mistaken for a syntax error. *)
Lemma parse_never_out_of_fuel (text : string) :
  parseValue (2 * String.length text + 1) (skipWs text) <> OutOfFuel.
Proof.
  apply (proj1 (parse_fuel _)). pose proof (skipWs_length text). lia.
Qed.

End JsonTotal.

(** ** The error message normalizer *)

Section ErrorMessages.
Import JS Utils.
Local Open Scope string_scope.

Lemma plain_text_is_not_json :
  JSON.parse "Unsupported MIME type: image/x-foo" = None.
Proof. reflexivity. Qed.

(** C8, as stated: for the plain message [Unsupported MIME type:
    image/x-foo] the friendly message names [image/x-foo].  The message is
    not JSON text, so the generic message is returned instead. *)
Lemma plain_mime_message_counterexample :
  ~ (forall error context,
       rawMessageOf error = "Unsupported MIME type: image/x-foo" ->
       includes "image/x-foo" (getFriendlyErrorMessage error context) = true).
Proof.
  intros H.
  specialize (H (ErrorObject "Unsupported MIME type: image/x-foo")
                "Échec de la génération" eq_refl).
  vm_compute in H. discriminate H.
Qed.

(** C8, amended.  For every raw error whose message is exactly
    [Unsupported MIME type: image/x-foo], and every context, the friendly
    message is the generic unsupported-format message, which does not
    name [image/x-foo]. *)
Theorem plain_mime_message_is_generic :
  forall error context,
    rawMessageOf error = "Unsupported MIME type: image/x-foo" ->
    getFriendlyErrorMessage error context = unsupportedFormatMessage /\
    includes "image/x-foo" (getFriendlyErrorMessage error context) = false.
Proof.
  intros error context H.
  assert (E : getFriendlyErrorMessage error context = unsupportedFormatMessage).
  { unfold getFriendlyErrorMessage, tryNestedMessage. rewrite H.
    rewrite plain_text_is_not_json. reflexivity. }
  split; [exact E|]. rewrite E. reflexivity.
Qed.

Lemma plain_mime_message_is_generic_witness :
  getFriendlyErrorMessage (StringValue "Unsupported MIME type: image/x-foo")
    "Échec de la création du modèle" = unsupportedFormatMessage /\
  includes "image/x-foo"
    (getFriendlyErrorMessage (StringValue "Unsupported MIME type: image/x-foo")
       "Échec de la création du modèle") = false.
Proof.
  apply (plain_mime_message_is_generic
           (StringValue "Unsupported MIME type: image/x-foo")
           "Échec de la création du modèle").
  reflexivity.
Defined.

Lemma nested_mime_message_names_the_type (context : string) :
  getFriendlyErrorMessage (ErrorObject nestedJsonMessage) context
  = "Le type de fichier 'image/bmp' n'est pas pris en charge. Veuillez utiliser un format comme PNG, JPEG, ou WEBP.".
Proof. reflexivity. Qed.

(** Messages without the marker are prefixed by the context. *)
Lemma other_message_is_prefixed (error : Unknown) (context : string) :
  includes marker (rawMessageOf error) = false ->
  getFriendlyErrorMessage error context = context ++ ". " ++ rawMessageOf error.
Proof. intros H. unfold getFriendlyErrorMessage. now rewrite H. Qed.

End ErrorMessages.

(** ** Cropping *)

Section Crop.
Import Canvas.

(** C7, as stated: the raster of a crop with non-zero width and height
    measures [round (width * scaleX)] by [round (height * scaleY)].  The
    canvas drops the fraction instead: a region of 303 by 405 on an image
    displayed at 4/5 of its size gives 378 by 506, not 379 by 506. *)
Lemma crop_size_is_rounded_counterexample :
  ~ (forall available image crop encoded,
       is_zero (cropWidth crop) = false ->
       is_zero (cropHeight crop) = false ->
       getCroppedImgDataUrl available image crop = Some encoded ->
       canvasWidth encoded = roundNearest (cropWidth crop * scaleX image) /\
       canvasHeight encoded = roundNearest (cropHeight crop * scaleY image)).
Proof.
  intros H.
  destruct (H true photo selection
              {| canvasWidth := 378; canvasHeight := 506;
                 drawn := {| sx := 12.5; sy := 25; sWidth := 378.75; sHeight := 506.25;
                             dx := 0; dy := 0; dWidth := 378; dHeight := 506 |};
                 encodedType := "image/jpeg"; quality := 0.9 |}
              eq_refl eq_refl eq_refl) as [Hw _].
  vm_compute in Hw. discriminate Hw.
Qed.

Example crop_of_the_selection :
  option_map (fun encoded => (canvasWidth encoded, canvasHeight encoded))
    (getCroppedImgDataUrl true photo selection) = Some (378, 506)%Z.
Proof. reflexivity. Qed.

Lemma setDimension_in_range (dflt : Z) (v : number) :
  (0 <= integerPart v <= 2147483647)%Z -> setDimension dflt v = integerPart v.
Proof.
  intros H. unfold setDimension, toUnsignedLong.
  rewrite Z.mod_small by lia.
  destruct (Z.leb_spec (integerPart v) 2147483647); [reflexivity | lia].
Qed.

Lemma is_zero_falsy (v : number) : is_zero v = true -> falsy v = true.
Proof. intros H. unfold falsy. now rewrite H. Qed.

(** C7, amended.  For every image and every crop whose width and height
    are truthy numbers (neither zero nor [NaN]), a canvas context being
    available, the raster is produced and its width and height are what
    the canvas makes of [width * scaleX] and [height * scaleY]: their
    integer parts, the fraction being dropped, whenever these lie between
    0 and 2147483647.  For every image, no raster is produced when the
    width or the height of the crop is zero. *)
Theorem crop_size_is_truncated :
  forall image crop,
    (falsy (cropWidth crop) = false ->
     falsy (cropHeight crop) = false ->
     exists encoded,
       getCroppedImgDataUrl true image crop = Some encoded /\
       canvasWidth encoded = setDimension 300 (cropWidth crop * scaleX image) /\
       canvasHeight encoded = setDimension 150 (cropHeight crop * scaleY image) /\
       ((0 <= integerPart (cropWidth crop * scaleX image) <= 2147483647)%Z ->
        canvasWidth encoded = integerPart (cropWidth crop * scaleX image)) /\
       ((0 <= integerPart (cropHeight crop * scaleY image) <= 2147483647)%Z ->
        canvasHeight encoded = integerPart (cropHeight crop * scaleY image))) /\
    (is_zero (cropWidth crop) = true \/ is_zero (cropHeight crop) = true ->
     forall available, getCroppedImgDataUrl available image crop = None).
Proof.
  intros image crop. split.
  - intros Hw Hh. unfold getCroppedImgDataUrl. rewrite Hw, Hh. cbn [orb negb].
    eexists. split; [reflexivity|]. cbn [canvasWidth canvasHeight].
    fold (scaleX image) (scaleY image).
    repeat split; intros; now apply setDimension_in_range.
  - intros H available. unfold getCroppedImgDataUrl.
    destruct H as [H | H]; apply is_zero_falsy in H; rewrite H;
      [reflexivity | now rewrite orb_true_r].
Qed.

End Crop.

(** ** Pose navigation *)

Section PoseNavigation.
Import Canvas.
Local Open Scope Z_scope.

Lemma indexOfFrom_spec (i : Z) (arr : list string) (v : string) :
  0 <= i ->
  (indexOfFrom i arr v = -1 /\ ~ In v arr) \/
  (i <= indexOfFrom i arr v < i + lengthOf arr /\
   nth_error arr (Z.to_nat (indexOfFrom i arr v - i)) = Some v).
Proof.
  revert i. induction arr as [|a arr IH]; intros i Hi; cbn [indexOfFrom].
  - left. split; [reflexivity | intros []].
  - destruct (String.eqb_spec a v) as [->|Hne].
    + right. unfold lengthOf. cbn [List.length]. split; [lia|].
      now rewrite Z.sub_diag.
    + destruct (IH (i + 1)) as [[E Hnot] | [Hb Hn]]; [lia | left | right].
      * split; [exact E|]. intros [?|?]; tauto.
      * unfold lengthOf in *. cbn [List.length]. split; [lia|].
        replace (Z.to_nat (indexOfFrom (i + 1) arr v - i))
          with (S (Z.to_nat (indexOfFrom (i + 1) arr v - (i + 1)))) by lia.
        exact Hn.
Qed.

Lemma item_in_range (arr : list string) (i : Z) :
  0 <= i < lengthOf arr -> exists s, item arr i = Some s /\ In s arr.
Proof.
  intros H. unfold item. destruct (Z.ltb_spec i 0); [lia|].
  destruct (nth_error arr (Z.to_nat i)) as [s|] eqn:E.
  - exists s. split; [reflexivity|]. eapply nth_error_In, E.
  - apply nth_error_None in E. unfold lengthOf in H. lia.
Qed.

Lemma previous_index_in_range (arr : list string) (v : string) :
  arr <> [] ->
  let currentIndex := indexOf arr v in
  0 <= (if currentIndex =? -1 then lengthOf arr - 1
        else Z.rem (currentIndex - 1 + lengthOf arr) (lengthOf arr)) < lengthOf arr.
Proof.
  intros Hne. assert (Hlen : 0 < lengthOf arr).
  { unfold lengthOf. destruct arr; [congruence | cbn; lia]. }
  cbn zeta. unfold indexOf.
  destruct (indexOfFrom_spec 0 arr v) as [[-> _] | [Hb _]]; [lia | |].
  - cbn. lia.
  - destruct (Z.eqb_spec (indexOfFrom 0 arr v) (-1)); [lia|].
    apply Z.rem_bound_pos; lia.
Qed.

Lemma next_index_in_range (arr : list string) (v : string) :
  arr <> [] ->
  let currentIndex := indexOf arr v in
  0 <= (if currentIndex =? -1 then 0
        else Z.rem (currentIndex + 1) (lengthOf arr)) < lengthOf arr.
Proof.
  intros Hne. assert (Hlen : 0 < lengthOf arr).
  { unfold lengthOf. destruct arr; [congruence | cbn; lia]. }
  cbn zeta. unfold indexOf.
  destruct (indexOfFrom_spec 0 arr v) as [[-> _] | [Hb _]]; [lia | |].
  - cbn. lia.
  - destruct (Z.eqb_spec (indexOfFrom 0 arr v) (-1)); [lia|].
    apply Z.rem_bound_pos; lia.
Qed.

(** C9.  Over the list [A; B; C] of poses, [A] and [B] being different
    poses, and no generation being in progress: from [B], next selects
    [C]; from a free text that is not in the list, next selects [A] and
    previous selects [C]. *)
Theorem navigation_over_three_poses :
  forall A B C : string,
    A <> B ->
    handleNextPose false [A; B; C] B = OnSelectPose (Some C) /\
    forall free,
      ~ In free [A; B; C] ->
      handleNextPose false [A; B; C] free = OnSelectPose (Some A) /\
      handlePreviousPose false [A; B; C] free = OnSelectPose (Some C).
Proof.
  intros A B C HAB. split.
  - unfold handleNextPose, indexOf. cbn [indexOfFrom].
    apply String.eqb_neq in HAB. rewrite HAB, String.eqb_refl. reflexivity.
  - intros free Hfree. cbn [In] in Hfree.
    assert (EA : String.eqb A free = false) by (apply String.eqb_neq; tauto).
    assert (EB : String.eqb B free = false) by (apply String.eqb_neq; tauto).
    assert (EC : String.eqb C free = false) by (apply String.eqb_neq; tauto).
    unfold handleNextPose, handlePreviousPose, indexOf. cbn [indexOfFrom].
    rewrite EA, EB, EC. split; reflexivity.
Qed.

Lemma navigation_over_three_poses_witness :
  handleNextPose false ["Face"; "Profil"; "Dos"]%string "Profil"
    = OnSelectPose (Some "Dos"%string) /\
  forall free,
    ~ In free ["Face"; "Profil"; "Dos"]%string ->
    handleNextPose false ["Face"; "Profil"; "Dos"]%string free
      = OnSelectPose (Some "Face"%string) /\
    handlePreviousPose false ["Face"; "Profil"; "Dos"]%string free
      = OnSelectPose (Some "Dos"%string).
Proof.
  apply (navigation_over_three_poses "Face" "Profil" "Dos").
  discriminate.
Defined.

(** C10.  Over a non-empty list of poses and from any current selection,
    listed or not, whatever either handler passes to [onSelectPose] is a
    pose of the list; and it does pass one unless a generation is in
    progress, in which case it selects nothing. *)
Theorem navigation_stays_in_the_list :
  forall (poseInstructions : list string) (current : string),
    poseInstructions <> [] ->
    (forall isLoading selected,
       handlePreviousPose isLoading poseInstructions current = OnSelectPose selected \/
       handleNextPose isLoading poseInstructions current = OnSelectPose selected ->
       exists pose, selected = Some pose /\ In pose poseInstructions) /\
    (exists pose, handlePreviousPose false poseInstructions current
                  = OnSelectPose (Some pose) /\ In pose poseInstructions) /\
    (exists pose, handleNextPose false poseInstructions current
                  = OnSelectPose (Some pose) /\ In pose poseInstructions).
Proof.
  intros arr current Hne.
  destruct (item_in_range arr _ (previous_index_in_range arr current Hne))
    as (p & Hp & Hpin).
  destruct (item_in_range arr _ (next_index_in_range arr current Hne))
    as (n & Hn & Hnin).
  repeat split.
  - intros isLoading selected. unfold handlePreviousPose, handleNextPose.
    destruct isLoading; [intros [H | H]; discriminate H|].
    intros [[= <-] | [= <-]]; eauto.
  - exists p. unfold handlePreviousPose. cbn [negb]. now rewrite Hp.
  - exists n. unfold handleNextPose. now rewrite Hn.
Qed.

Lemma navigation_stays_in_the_list_witness :
  (forall isLoading selected,
     handlePreviousPose isLoading ["Face"; "Profil"]%string "Vue de dessus"
       = OnSelectPose selected \/
     handleNextPose isLoading ["Face"; "Profil"]%string "Vue de dessus"
       = OnSelectPose selected ->
     exists pose, selected = Some pose /\ In pose ["Face"; "Profil"]%string) /\
  (exists pose, handlePreviousPose false ["Face"; "Profil"]%string "Vue de dessus"
                = OnSelectPose (Some pose) /\ In pose ["Face"; "Profil"]%string) /\
  (exists pose, handleNextPose false ["Face"; "Profil"]%string "Vue de dessus"
                = OnSelectPose (Some pose) /\ In pose ["Face"; "Profil"]%string).
Proof.
  apply (navigation_stays_in_the_list ["Face"; "Profil"]%string "Vue de dessus").
  discriminate.
Defined.

End PoseNavigation.

(** ** More on the data-URL codec *)

Section DataUrlCodecFurther.
Import JS GeminiService.
Local Open Scope string_scope.

Lemma split_char_append (c : ascii) (a b : string) :
  split (str c) (a ++ String c b) = (split (str c) a ++ split (str c) b)%list.
Proof.
  induction a as [|x a IH]; cbn [append].
  - rewrite split_char_cons, Ascii.eqb_refl. reflexivity.
  - rewrite !split_char_cons, IH. destruct (Ascii.eqb x c); [reflexivity|].
    destruct (split (str c) a) as [|seg segs] eqn:E; [|reflexivity].
    now apply split_nonempty in E.
Qed.

Lemma split_char_segments (c : ascii) (s : string) :
  Forall (fun seg => containsChar c seg = false) (split (str c) s).
Proof.
  induction s as [|x s IH]; [repeat constructor|].
  rewrite split_char_cons. destruct (Ascii.eqb x c) eqn:E.
  - constructor; [reflexivity | exact IH].
  - destruct (split (str c) s) as [|seg segs]; [repeat constructor; cbn; now rewrite E|].
    inversion IH as [|? ? Hseg Hsegs]; subst.
    constructor; [cbn; now rewrite E, Hseg | exact Hsegs].
Qed.

(** What a successful decoding read: the first two segments around the
    commas, and the capture of the leftmost match in the first. *)
Lemma dataUrlToParts_Return (d : string) (b : Blob) :
  dataUrlToParts d = Return b <->
  exists h second others,
    split (str comma) d = (h :: second :: others)%list /\
    matchMime h = Some (mimeType b) /\
    mimeType b <> "" /\
    data b = second.
Proof.
  unfold dataUrlToParts. change "," with (str comma).
  destruct (split (str comma) d) as [|h [|second others]] eqn:E; cbn.
  - split; [discriminate|]. intros (? & ? & ? & H & _). discriminate H.
  - split; [discriminate|]. intros (? & ? & ? & H & _). discriminate H.
  - destruct (matchMime h) as [g|] eqn:Eg.
    + destruct g as [|x g]; cbn.
      * split; [discriminate|].
        intros (h' & s' & o' & [= <- <- <-] & Hm & Hne & _). congruence.
      * split.
        -- intros [= <-]. exists h, second, others. cbn. repeat split; congruence.
        -- intros (h' & s' & o' & [= <- <- <-] & Hm & _ & Hd).
           destruct b as [m dat]. cbn in *. congruence.
    + split; [discriminate|].
      intros (h' & s' & o' & [= <- <- <-] & Hm & _). congruence.
Qed.

Lemma segments_are_plain (d h second m : string) (others : list string) :
  split (str comma) d = (h :: second :: others)%list ->
  matchMime h = Some m ->
  m <> "" ->
  plainMime m = true /\ containsChar comma second = false.
Proof.
  intros Es Hm Hne.
  pose proof (split_char_segments comma d) as Hseg. rewrite Es in Hseg.
  inversion Hseg as [|? ? Hh Hrest]; subst.
  inversion Hrest as [|? ? Hsecond _]; subst.
  split; [|exact Hsecond].
  apply matchMime_Some in Hm as (pre & (post & -> & Hs & Hl) & _).
  rewrite containsChar_append in Hh. cbn [containsChar] in Hh.
  rewrite containsChar_append in Hh.
  apply orb_false_iff in Hh as [_ Hh]. apply orb_false_iff in Hh as [_ Hh].
  apply orb_false_iff in Hh as [Hc _].
  unfold plainMime. apply truthy_nonempty in Hne. now rewrite Hne, Hc, Hs, Hl.
Qed.

(** X1.  The parts that decoding returns are well formed: the MIME type is
    not empty and holds no comma, semicolon or line terminator, and the
    data holds no comma. *)
Theorem decoded_parts_are_plain :
  forall d b,
    dataUrlToParts d = Return b ->
    plainMime (mimeType b) = true /\ containsChar comma (data b) = false.
Proof.
  intros d b H. apply dataUrlToParts_Return in H
    as (h & second & others & Es & Hm & Hne & Hd).
  rewrite Hd. exact (segments_are_plain d h second _ others Es Hm Hne).
Qed.

Lemma decoded_parts_are_plain_witness :
  plainMime (mimeType (mkBlob "image/webp" "UklGRg==")) = true /\
  containsChar comma (data (mkBlob "image/webp" "UklGRg==")) = false.
Proof.
  apply (decoded_parts_are_plain "data:image/webp;charset=binary;base64,UklGRg==,rest").
  reflexivity.
Defined.

(** Decoding the data URL of a plain MIME type and comma-free data. *)
Lemma dataUrlToParts_dataUrlOf (m dat : string) :
  plainMime m = true ->
  containsChar comma dat = false ->
  dataUrlToParts (dataUrlOf m dat) = Return {| mimeType := m; data := dat |}.
Proof.
  unfold plainMime. intros Hm Hd.
  apply andb_true_iff in Hm as [Hm Hl]. apply andb_true_iff in Hm as [Hm Hs].
  apply andb_true_iff in Hm as [Hne Hc].
  apply negb_true_iff in Hl, Hs, Hc.
  apply dataUrlToParts_Return. exists ("data:" ++ m ++ ";base64"), dat, nil.
  cbn [mimeType data]. repeat split.
  - unfold dataUrlOf.
    replace ("data:" ++ m ++ ";base64," ++ dat)
      with (("data:" ++ m ++ ";base64") ++ String comma dat)
      by now rewrite !append_assoc.
    rewrite split_at_first by (rewrite !containsChar_append, Hc; reflexivity).
    now rewrite (split_without _ _ Hd).
  - cbn -[lazyDotSemi]. change ";base64" with (String semicolon "base64").
    now rewrite (lazyDotSemi_complete _ _ Hs Hl).
  - now apply truthy_nonempty.
Qed.

(** X2.  Decoding then encoding reaches a fixed point: the data URL built
    from the parts of any decodable input decodes to the same parts. *)
Theorem decode_encode_decode :
  forall d b,
    dataUrlToParts d = Return b ->
    dataUrlToParts (dataUrlOf (mimeType b) (data b)) = Return b.
Proof.
  intros d b H. apply dataUrlToParts_Return in H
    as (h & second & others & Es & Hm & Hne & Hd).
  destruct (segments_are_plain d h second _ others Es Hm Hne) as [Hp Hc].
  rewrite <- Hd in Hc. rewrite (dataUrlToParts_dataUrlOf _ _ Hp Hc).
  now destruct b.
Qed.

Lemma decode_encode_decode_witness :
  dataUrlToParts (dataUrlOf (mimeType (mkBlob "text/plain" "SGVsbG8="))
                            (data (mkBlob "text/plain" "SGVsbG8=")))
  = Return (mkBlob "text/plain" "SGVsbG8=").
Proof.
  apply (decode_encode_decode "data:text/plain;charset=utf-8;base64,SGVsbG8=").
  reflexivity.
Defined.

(** X3.  Only the text up to the second comma is read: whatever follows a
    further comma changes neither the parts returned nor the error. *)
Theorem text_after_second_comma_is_ignored :
  forall d more,
    containsChar comma d = true ->
    dataUrlToParts (d ++ String comma more) = dataUrlToParts d.
Proof.
  intros d more Hc.
  destruct (beforeFirst_exists _ _ Hc) as (h & Hh).
  destruct (beforeFirst_split _ _ _ Hh) as (second & others & E).
  unfold dataUrlToParts. change "," with (str comma).
  rewrite split_char_append, E. reflexivity.
Qed.

Lemma text_after_second_comma_is_ignored_witness :
  dataUrlToParts ("data:image/png;base64,AAAA" ++ String comma "BBBB,CCCC")
  = dataUrlToParts "data:image/png;base64,AAAA".
Proof.
  apply (text_after_second_comma_is_ignored "data:image/png;base64,AAAA" "BBBB,CCCC").
  reflexivity.
Defined.

End DataUrlCodecFurther.

(** ** More on the classification of a response *)

Section ResponseClassifierFurther.
Import JS GeminiService.

Lemma blocked_iff (response : GenerateContentResponse) :
  blockingFeedback response = None <-> ~ hasBlockReason response.
Proof.
  split; [|apply not_blocked].
  intros H (pf & reason & Hpf & Hr & Hne). unfold blockingFeedback in H.
  rewrite Hpf, Hr in H. apply truthy_nonempty in Hne. rewrite Hne in H.
  discriminate H.
Qed.

Lemma firstImage_of (response : GenerateContentResponse) :
  firstImage (match candidates response with Some cs => cs | None => [] end)
  = firstInline (allParts response).
Proof. apply firstImage_flat. Qed.

(** X4.  The function returns a data URL exactly when the response has no
    block reason and holds an inline image somewhere; in every other case
    it throws. *)
Theorem returns_exactly_when_unblocked_with_image :
  forall response,
    (exists url, handleApiResponse response = Return url) <->
    ~ hasBlockReason response /\
    exists p, In p (allParts response) /\ inlineData p <> None.
Proof.
  intros response. unfold handleApiResponse. rewrite firstImage_of. split.
  - intros (url & H).
    destruct (blockingFeedback response) as [[reason message]|] eqn:Eb;
      [discriminate H|].
    split; [now apply blocked_iff|].
    destruct (firstInline (allParts response)) as [b|] eqn:Ei.
    + destruct (firstInline_Some _ _ Ei) as (p & before & after & Hps & _ & Hp).
      exists p. split; [|congruence]. rewrite Hps. apply in_elt.
    + destruct (match firstFinishReason response with
                | Some reason => if truthy reason && negb (reason =? "STOP")%string
                                 then Some reason else None
                | None => None
                end); discriminate H.
  - intros (Hnb & p & Hin & Hp). apply blocked_iff in Hnb. rewrite Hnb.
    destruct (firstInline (allParts response)) as [b|] eqn:Ei; [eauto|].
    exfalso. apply firstInline_None in Ei. rewrite Forall_forall in Ei.
    apply Hp, Ei, Hin.
Qed.



End ResponseClassifierFurther.

(** ** More on the generation pipeline *)

Section GenerationPipelineFurther.
Import JS GeminiService.

Lemma run_generate_full (w : World) (ps : list Part) :
  run w (generate ps) = ([requestOf ps], answerTo w (requestOf ps)).
Proof.
  unfold generate, answerTo, requestOf. cbn.
  destruct (remoteModel w _); reflexivity.
Qed.

Lemma filesRead_generate (w : World) (ps : list Part) :
  filesRead w (generate ps) = [].
Proof.
  unfold generate. cbn. destruct (remoteModel w _); reflexivity.
Qed.

Lemma includes_prefix (needle rest : string) :
  prefix needle (needle ++ rest) = true.
Proof.
  induction needle as [|c needle IH]; cbn; [now destruct rest|].
  destruct (ascii_dec c c); [exact IH | congruence].
Qed.

Lemma includes_middle (needle before after : string) :
  includes needle (before ++ needle ++ after) = true.
Proof.
  induction before as [|c before IH]; cbn [append].
  - destruct needle as [|x needle]; [now destruct after|].
    cbn [append includes]. fold (append needle after).
    change (String x (needle ++ after)) with (String x needle ++ after)%string.
    now rewrite includes_prefix.
  - cbn [includes]. rewrite IH. apply orb_true_r.
Qed.

(** X6.  When the photo of the user is read as a data URL that decodes,
    creating the model reads that one file and sends exactly one request:
    the image, then the fixed instruction.  The promise settles as the
    classification of the response, or as the rejection of the model. *)
Theorem model_image_request :
  forall (w : World) userImage url image,
    fileReader w userImage = Return url ->
    dataUrlToParts url = Return image ->
    let request := requestOf [inlinePart image; textPart modelImagePrompt] in
    requestsOf w (generateModelImage userImage) = [request] /\
    filesRead w (generateModelImage userImage) = [userImage] /\
    settlement w (generateModelImage userImage) = answerTo w request.
Proof.
  intros w userImage url image Hr Hd request.
  unfold generateModelImage, fileToPart, requestsOf, settlement.
  cbn [andThen run filesRead]. rewrite Hr. cbn [andThen run filesRead].
  rewrite Hd. cbn [bind andThen]. rewrite blob_eta.
  rewrite run_generate_full, filesRead_generate. repeat split.
Qed.

Lemma model_image_request_witness :
  let request :=
    requestOf [inlinePart (mkBlob "image/jpeg" "/9j/4AAQSkZJRg==");
               textPart modelImagePrompt] in
  requestsOf studio (generateModelImage (mkFile "moi.jpg" "image/jpeg")) = [request] /\
  filesRead studio (generateModelImage (mkFile "moi.jpg" "image/jpeg"))
    = [mkFile "moi.jpg" "image/jpeg"] /\
  settlement studio (generateModelImage (mkFile "moi.jpg" "image/jpeg"))
    = answerTo studio request.
Proof.
  apply (model_image_request studio (mkFile "moi.jpg" "image/jpeg")
           "data:image/jpeg;base64,/9j/4AAQSkZJRg=="
           (mkBlob "image/jpeg" "/9j/4AAQSkZJRg==")).
  - reflexivity.
  - reflexivity.
Defined.

(** X7.  When the current image decodes, a pose variation reads no file
    and sends exactly one request: the image, then an instruction that
    holds the pose instruction verbatim, whatever its text. *)
Theorem pose_variation_request :
  forall (w : World) tryOnImageUrl poseInstruction image,
    dataUrlToParts tryOnImageUrl = Return image ->
    exists instruction,
      requestsOf w (generatePoseVariation tryOnImageUrl poseInstruction)
        = [requestOf [inlinePart image; textPart instruction]] /\
      includes poseInstruction instruction = true /\
      filesRead w (generatePoseVariation tryOnImageUrl poseInstruction) = [] /\
      settlement w (generatePoseVariation tryOnImageUrl poseInstruction)
        = answerTo w (requestOf [inlinePart image; textPart instruction]).
Proof.
  intros w url pose image Hd. exists (posePrompt pose).
  unfold generatePoseVariation, dataUrlToPart, requestsOf, settlement.
  rewrite Hd. cbn [bind andThen]. rewrite blob_eta.
  rewrite run_generate_full, filesRead_generate. repeat split.
  unfold posePrompt.
  rewrite <- (append_assoc _ (str dquote) (pose ++ _)).
  apply includes_middle.
Qed.

Lemma pose_variation_request_witness :
  exists instruction,
    requestsOf studio (generatePoseVariation "data:image/png;base64,AAAA" "Vue de dos")
      = [requestOf [inlinePart (mkBlob "image/png" "AAAA"); textPart instruction]] /\
    includes "Vue de dos" instruction = true /\
    filesRead studio (generatePoseVariation "data:image/png;base64,AAAA" "Vue de dos") = [] /\
    settlement studio (generatePoseVariation "data:image/png;base64,AAAA" "Vue de dos")
      = answerTo studio (requestOf [inlinePart (mkBlob "image/png" "AAAA");
                                    textPart instruction]).
Proof.
  apply (pose_variation_request studio "data:image/png;base64,AAAA" "Vue de dos"
           (mkBlob "image/png" "AAAA")).
  reflexivity.
Defined.

(** X8.  Applying a garment sends a request exactly when the model data
    URL decodes and the garment file is read as a data URL that decodes.
    A model data URL that does not decode rejects the promise with the
    decoding error before the garment file is read. *)
Theorem try_on_request_exactly_when_inputs_decode :
  forall (w : World) modelImageUrl garmentImage,
    (requestsOf w (generateVirtualTryOnImage modelImageUrl garmentImage) <> [] <->
     exists modelImage garmentUrl garment,
       dataUrlToParts modelImageUrl = Return modelImage /\
       fileReader w garmentImage = Return garmentUrl /\
       dataUrlToParts garmentUrl = Return garment) /\
    (forall e,
       dataUrlToParts modelImageUrl = Throw e ->
       filesRead w (generateVirtualTryOnImage modelImageUrl garmentImage) = [] /\
       settlement w (generateVirtualTryOnImage modelImageUrl garmentImage) = Throw e).
Proof.
  intros w modelImageUrl garmentImage.
  unfold generateVirtualTryOnImage, dataUrlToPart, fileToPart, requestsOf, settlement.
  destruct (dataUrlToParts modelImageUrl) as [m|e0]; cbn [bind andThen run filesRead].
  - split; [|intros e H; discriminate H].
    destruct (fileReader w garmentImage) as [url|e1]; cbn [andThen run fst].
    + destruct (dataUrlToParts url) as [g|e2] eqn:Eg; cbn [bind andThen run fst].
      * rewrite run_generate_full. cbn [fst]. split; [|discriminate].
        intros _. exists m, url, g. auto.
      * split; [intros H; now elim H|].
        intros (m' & url' & g' & _ & [= <-] & Hg). congruence.
    + split; [intros H; now elim H|].
      intros (m' & url' & g' & _ & Hr & _). discriminate Hr.
  - split.
    + cbn. split; [intros H; now elim H|].
      intros (m' & url' & g' & Hm & _). discriminate Hm.
    + intros e [= <-]. split; reflexivity.
Qed.

(** X9.  When the inputs of a garment application decode, the promise
    settles as the response of the model is classified, and as the
    rejection of the model when it rejects; the garment file is the one
    file read. *)
Theorem try_on_settles_as_the_answer :
  forall (w : World) modelImageUrl garmentImage modelImage garmentUrl garment,
    dataUrlToParts modelImageUrl = Return modelImage ->
    fileReader w garmentImage = Return garmentUrl ->
    dataUrlToParts garmentUrl = Return garment ->
    settlement w (generateVirtualTryOnImage modelImageUrl garmentImage)
      = answerTo w (requestOf [inlinePart modelImage; inlinePart garment;
                               textPart tryOnPrompt]) /\
    filesRead w (generateVirtualTryOnImage modelImageUrl garmentImage) = [garmentImage].
Proof.
  intros w modelImageUrl garmentImage modelImage garmentUrl garment Hm Hr Hg.
  unfold generateVirtualTryOnImage, dataUrlToPart, fileToPart, settlement.
  rewrite Hm. cbn [bind andThen run filesRead]. rewrite Hr.
  cbn [andThen run filesRead]. rewrite Hg. cbn [bind andThen].
  rewrite !blob_eta, run_generate_full, filesRead_generate. split; reflexivity.
Qed.

Lemma try_on_settles_as_the_answer_witness :
  settlement studio
    (generateVirtualTryOnImage "data:image/png;base64,AAAA" (mkFile "robe.jpg" "image/jpeg"))
    = answerTo studio
        (requestOf [inlinePart (mkBlob "image/png" "AAAA");
                    inlinePart (mkBlob "image/jpeg" "/9j/4AAQSkZJRg==");
                    textPart tryOnPrompt]) /\
  filesRead studio
    (generateVirtualTryOnImage "data:image/png;base64,AAAA" (mkFile "robe.jpg" "image/jpeg"))
    = [mkFile "robe.jpg" "image/jpeg"].
Proof.
  apply (try_on_settles_as_the_answer studio "data:image/png;base64,AAAA"
           (mkFile "robe.jpg" "image/jpeg") (mkBlob "image/png" "AAAA")
           "data:image/jpeg;base64,/9j/4AAQSkZJRg=="
           (mkBlob "image/jpeg" "/9j/4AAQSkZJRg==")).
  - reflexivity.
  - reflexivity.
  - reflexivity.
Defined.

(** X10.  The image that a generation returns can be sent back as it is:
    when a response has no block reason and its first inline image has a
    plain MIME type and comma-free data, the data URL returned for it,
    given to a pose variation, puts that same image in the request. *)
Theorem returned_image_feeds_the_next_request :
  forall (w : World) response p image poseInstruction,
    ~ hasBlockReason response ->
    firstInlineImage (allParts response) p image ->
    plainMime (mimeType image) = true ->
    containsChar comma (data image) = false ->
    exists url,
      handleApiResponse response = Return url /\
      requestsOf w (generatePoseVariation url poseInstruction)
        = [requestOf [inlinePart image; textPart (posePrompt poseInstruction)]].
Proof.
  intros w response p image pose Hnb Hfirst Hm Hd.
  exists (dataUrlOf (mimeType image) (data image)). split.
  - unfold handleApiResponse. apply blocked_iff in Hnb.
    rewrite Hnb, firstImage_of, (firstInline_complete _ _ _ Hfirst). reflexivity.
  - unfold generatePoseVariation, dataUrlToPart, requestsOf.
    rewrite (dataUrlToParts_dataUrlOf _ _ Hm Hd). cbn [bind andThen mimeType data].
    rewrite blob_eta, run_generate_full. reflexivity.
Qed.

Lemma returned_image_feeds_the_next_request_witness :
  exists url,
    handleApiResponse imageInSecondCandidate = Return url /\
    requestsOf studio (generatePoseVariation url "Vue de profil")
      = [requestOf [inlinePart (mkBlob "image/png" "AAAA");
                    textPart (posePrompt "Vue de profil")]].
Proof.
  apply (returned_image_feeds_the_next_request studio imageInSecondCandidate
           (inlinePart (mkBlob "image/png" "AAAA")) (mkBlob "image/png" "AAAA")
           "Vue de profil").
  - intros (pf & reason & Hpf & Hr & _). cbn in Hpf. injection Hpf as <-.
    discriminate Hr.
  - exists [textPart "Voici"; textPart "le résultat"],
           [inlinePart (mkBlob "image/jpeg" "BBBB")].
    repeat split. repeat constructor.
  - reflexivity.
  - reflexivity.
Defined.

End GenerationPipelineFurther.

(** ** More on the error message normalizer *)

Section ErrorMessagesFurther.
Import JS Utils.
Local Open Scope string_scope.

Lemma parse_of_text_starting_with_U (rest : string) :
  JSON.parse (String "U" rest) = None.
Proof.
  unfold JSON.parse. cbn [JSON.skipWs JSON.isWs Ascii.eqb Bool.eqb orb].
  cbn [String.length Nat.mul Nat.add]. reflexivity.
Qed.

(** X11.  A plain message that starts with [Unsupported MIME type] is not
    JSON text, so whatever follows, a type name included, the friendly
    message is the generic unsupported-format message, for every kind of
    raw error and every context. *)
Theorem plain_unsupported_message_is_generic :
  forall error context rest,
    rawMessageOf error = "Unsupported MIME type" ++ rest ->
    getFriendlyErrorMessage error context = unsupportedFormatMessage.
Proof.
  intros error context rest H. unfold getFriendlyErrorMessage. rewrite H.
  change ("Unsupported MIME type" ++ rest)
    with (EmptyString ++ marker ++ rest) at 1.
  rewrite includes_middle. unfold tryNestedMessage.
  change ("Unsupported MIME type" ++ rest)
    with (String "U" ("nsupported MIME type" ++ rest)).
  now rewrite parse_of_text_starting_with_U.
Qed.

Lemma plain_unsupported_message_is_generic_witness :
  getFriendlyErrorMessage
    (ErrorObject ("Unsupported MIME type" ++ ": image/gif. Supported types are PNG and JPEG."))
    "Échec de l'application du vêtement"
  = unsupportedFormatMessage.
Proof.
  apply (plain_unsupported_message_is_generic
           (ErrorObject ("Unsupported MIME type" ++ ": image/gif. Supported types are PNG and JPEG."))
           "Échec de l'application du vêtement"
           ": image/gif. Supported types are PNG and JPEG.").
  reflexivity.
Defined.

Lemma parseChars_plain (fuel : nat) (msg rest : string) :
  jsonPlain msg = true ->
  String.length msg < fuel ->
  JSON.parseChars fuel (msg ++ String dquote rest) = JSON.Parsed msg rest.
Proof.
  revert fuel. induction msg as [|c msg IH]; intros fuel Hp Hf.
  - destruct fuel; [lia|]. cbn. reflexivity.
  - destruct fuel; [lia|]. cbn [jsonPlain] in Hp.
    apply andb_true_iff in Hp as [Hp Hrest]. apply andb_true_iff in Hp as [Hp Hc].
    apply andb_true_iff in Hp as [Hq Hb]. apply negb_true_iff in Hq, Hb, Hc.
    cbn [append JSON.parseChars]. rewrite Hq, Hb, Hc.
    rewrite IH by (trivial; cbn in Hf; lia). reflexivity.
Qed.

Lemma parseString_plain (msg rest : string) :
  jsonPlain msg = true ->
  JSON.parseString (msg ++ String dquote rest) = JSON.Parsed msg rest.
Proof.
  intros Hp. unfold JSON.parseString. apply parseChars_plain; [exact Hp|].
  clear Hp. induction msg; cbn in *; lia.
Qed.

Lemma parseValue_string (fuel : nat) (rest : string) :
  JSON.parseValue (S fuel) (String dquote rest)
  = JSON.mapParse JSON.JString (JSON.parseString rest).
Proof. reflexivity. Qed.

Lemma parseValue_object (fuel : nat) (afterQuote : string) :
  JSON.parseValue (S fuel) (String "{" (String dquote afterQuote))
  = JSON.mapParse JSON.JObject (JSON.parseMembers fuel (String dquote afterQuote)).
Proof. reflexivity. Qed.

(** The one member of an object: a key, a colon, a value and the closing
    brace, without white space. *)
Lemma parseMembers_single (fuel : nat) (key afterQuote valueText rest : string)
  (v : JSON.Json) :
  JSON.parseString afterQuote = JSON.Parsed key (String colon valueText) ->
  JSON.skipWs valueText = valueText ->
  JSON.parseValue fuel valueText = JSON.Parsed v (String "}" rest) ->
  JSON.parseMembers (S fuel) (String dquote afterQuote) = JSON.Parsed [(key, v)] rest.
Proof.
  intros Hk Hws Hv. cbn [JSON.parseMembers].
  change (Ascii.eqb dquote dquote) with true. cbn [negb].
  rewrite Hk. change (JSON.skipWs (String colon valueText)) with (String colon valueText).
  change (Ascii.eqb colon colon) with true. cbn [negb]. rewrite Hws, Hv. reflexivity.
Qed.

Lemma parse_jsonErrorText (msg : string) :
  jsonPlain msg = true ->
  JSON.parse (jsonErrorText msg)
  = Some (JSON.JObject [("error", JSON.JObject [("message", JSON.JString msg)])]).
Proof.
  intros Hp. unfold JSON.parse.
  assert (Hf : exists k, 2 * String.length (jsonErrorText msg) + 1 = S (S (S (S (S k))))).
  { exists (2 * String.length (jsonErrorText msg) + 1 - 5).
    unfold jsonErrorText. cbn [append str String.length]. lia. }
  destruct Hf as (k & ->).
  change (JSON.skipWs (jsonErrorText msg))
    with (String "{" (String dquote
            ("error" ++ String dquote (String colon
               (String "{" (String dquote
                  ("message" ++ String dquote (String colon
                     (String dquote (msg ++ String dquote "}}"))))))))))%string.
  rewrite parseValue_object.
  erewrite parseMembers_single
    with (key := "error") (rest := "")
         (v := JSON.JObject [("message", JSON.JString msg)]); [reflexivity | | |].
  - now apply parseString_plain.
  - reflexivity.
  - rewrite parseValue_object.
    erewrite parseMembers_single
      with (key := "message") (rest := "}") (v := JSON.JString msg);
      [reflexivity | | |].
    + now apply parseString_plain.
    + reflexivity.
    + rewrite parseValue_string.
      change "}}" with (String "}" "}"). now rewrite parseString_plain.
Qed.

Lemma split_without_separator (sep s : string) :
  includes sep s = false -> split sep s = [s].
Proof.
  unfold split. induction s as [|c s IH]; [reflexivity|].
  cbn [includes]. intros H. apply orb_false_iff in H as [Hp Hi].
  cbn [splitFrom]. rewrite Hp, (IH Hi). reflexivity.
Qed.

(** Splitting on colon-space after a text that holds no colon. *)
Lemma split_after_colon_free (a t : string) :
  containsChar colon a = false ->
  split ": " (a ++ ": " ++ t) = (a :: split ": " t)%list.
Proof.
  unfold split. induction a as [|c a IH]; intros H.
  - assert (E : prefix ": " (String ":" (String " " t)) = true)
      by apply (includes_prefix ": " t).
    cbn [append splitFrom]. rewrite E. reflexivity.
  - cbn [containsChar] in H. apply orb_false_iff in H as [Hc Ha].
    specialize (IH Ha). cbn [append] in IH |- *. cbn [splitFrom]. rewrite IH.
    assert (E : forall u, prefix ": " (String c u) = false).
    { intros u. cbn [prefix]. destruct (ascii_dec ":" c) as [<-|]; [|reflexivity].
      discriminate Hc. }
    now rewrite E.
Qed.

Lemma split_unsupported_message (t : string) :
  includes ": " t = false ->
  split ": " ("Unsupported MIME type: " ++ t) = ["Unsupported MIME type"; t].
Proof.
  intros H. change ("Unsupported MIME type: " ++ t)
    with ("Unsupported MIME type" ++ ": " ++ t).
  rewrite split_after_colon_free by reflexivity.
  now rewrite (split_without_separator _ _ H).
Qed.

(** X12.  When the raw message is the JSON text whose [error.message] is
    [Unsupported MIME type: <type>], the type being non-empty text
    without quote, backslash, control character or colon-space, the
    friendly message names that very type, for every kind of raw error
    and every context. *)
Theorem nested_unsupported_message_names_the_type :
  forall error context type,
    rawMessageOf error = jsonErrorText ("Unsupported MIME type: " ++ type) ->
    jsonPlain type = true ->
    includes ": " type = false ->
    type <> "" ->
    getFriendlyErrorMessage error context
    = "Le type de fichier '" ++ type
        ++ "' n'est pas pris en charge. Veuillez utiliser un format comme PNG, JPEG, ou WEBP.".
Proof.
  intros error context type Hraw Hp Hs Hne.
  unfold getFriendlyErrorMessage. rewrite Hraw.
  assert (Hinc : includes marker (jsonErrorText ("Unsupported MIME type: " ++ type)) = true).
  { change (jsonErrorText ("Unsupported MIME type: " ++ type))
      with (("{" ++ str dquote ++ "error" ++ str dquote ++ ":{" ++ str dquote
               ++ "message" ++ str dquote ++ ":" ++ str dquote)
            ++ marker ++ (": " ++ type ++ str dquote ++ "}}")).
    apply includes_middle. }
  rewrite Hinc. unfold tryNestedMessage.
  rewrite parse_jsonErrorText by exact Hp.
  cbn [JSON.optionalGet JSON.lookup String.eqb Ascii.eqb Bool.eqb].
  change (includes marker ("Unsupported MIME type: " ++ type))
    with (includes marker (EmptyString ++ marker ++ (": " ++ type))).
  rewrite includes_middle, (split_unsupported_message _ Hs).
  cbn [at_ nth_error orElse]. apply truthy_nonempty in Hne. rewrite Hne.
  reflexivity.
Qed.

Lemma nested_unsupported_message_names_the_type_witness :
  getFriendlyErrorMessage
    (StringValue (jsonErrorText ("Unsupported MIME type: " ++ "image/bmp")))
    "Échec de la création du modèle"
  = "Le type de fichier '" ++ "image/bmp"
      ++ "' n'est pas pris en charge. Veuillez utiliser un format comme PNG, JPEG, ou WEBP.".
Proof.
  apply (nested_unsupported_message_names_the_type
           (StringValue (jsonErrorText ("Unsupported MIME type: " ++ "image/bmp")))
           "Échec de la création du modèle" "image/bmp").
  - reflexivity.
  - reflexivity.
  - reflexivity.
  - discriminate.
Defined.

End ErrorMessagesFurther.

(** ** More on cropping and on the state of the component *)

Section CropFurther.
Import JS Canvas CanvasComponent.

Lemma setDimension_bounds (dflt : Z) (v : number) :
  (0 <= dflt <= 2147483647)%Z -> (0 <= setDimension dflt v <= 2147483647)%Z.
Proof.
  intros H. unfold setDimension, toUnsignedLong.
  pose proof (Z.mod_pos_bound (integerPart v) 4294967296 eq_refl) as B.
  destruct (Z.leb_spec (integerPart v mod 4294967296) 2147483647); lia.
Qed.

(** X13.  No raster is produced exactly when the width or the height of
    the crop is falsy (zero, negative zero or [NaN]) or no 2d context is
    available; and the width and height of every raster produced lie
    between 0 and 2147483647, whatever the numbers of the crop. *)
Theorem crop_is_absent_exactly_when :
  forall available image c,
    (getCroppedImgDataUrl available image c = None <->
       falsy (cropWidth c) = true \/ falsy (cropHeight c) = true \/ available = false) /\
    (forall encoded,
       getCroppedImgDataUrl available image c = Some encoded ->
       (0 <= canvasWidth encoded <= 2147483647)%Z /\
       (0 <= canvasHeight encoded <= 2147483647)%Z).
Proof.
  intros available image c. unfold getCroppedImgDataUrl.
  destruct (falsy (cropWidth c)) eqn:Ew; cbn [orb].
  { split; [tauto | discriminate]. }
  destruct (falsy (cropHeight c)) eqn:Eh.
  { split; [tauto | discriminate]. }
  destruct available; cbn [negb].
  - split.
    + split; [discriminate|]. intros [H | [H | H]]; discriminate H.
    + intros encoded [= <-]. cbn [canvasWidth canvasHeight].
      split; apply setDimension_bounds; lia.
  - split; [tauto | discriminate].
Qed.





(** A run: the default crop of the photo is confirmed, then the parent
    passes another base image.  The render with the new image still shows
    the crop; after the effect has run, the new image is shown. *)
Example crop_outlives_one_render :
  let events := [ImageLoaded photo; ConfirmClicked true (Some photo)] in
  option_map (fun r => match r with CroppedUrl _ => true | DisplayUrl _ => false end)
    (displayed (renderAfter (Some "data:image/png;base64,AAAA"%string)
                  (events ++ [RenderedWith (Some "data:image/png;base64,BBBB"%string)])))
    = Some true /\
  displayed (renderAfter (Some "data:image/png;base64,AAAA"%string)
               (events ++ [RenderedWith (Some "data:image/png;base64,BBBB"%string);
                           EffectsRun]))
    = Some (DisplayUrl "data:image/png;base64,BBBB"%string).
Proof. split; reflexivity. Qed.

End CropFurther.

(** ** The custom pose *)

Section CustomPose.
Import JS Canvas CanvasComponent JSTrim.

Lemma whiteSpaceAt_prefix (a b : string) :
  whiteSpaceAt (a ++ b) = 0 -> whiteSpaceAt a = 0.
Proof.
  destruct a as [|c1 [|c2 [|c3 a]]]; cbn [append whiteSpaceAt]; trivial.
  - destruct ((9 <=? byte c1) && (byte c1 <=? 13) || (byte c1 =? 32))%nat;
      [discriminate | reflexivity].
  - destruct ((9 <=? byte c1) && (byte c1 <=? 13) || (byte c1 =? 32))%nat;
      [discriminate|].
    destruct ((byte c1 =? 194) && (byte c2 =? 160))%nat; [discriminate | reflexivity].
Qed.

Lemma trimEndFuel_skipn (fuel : nat) (r : list ascii) :
  exists k, trimEndFuel fuel r = skipn k r.
Proof.
  revert r. induction fuel as [|f IH]; intros r; [now exists 0|].
  cbn [trimEndFuel]. destruct (whiteSpaceAtEnd r) as [|n]; [now exists 0|].
  destruct (IH (skipn (S n) r)) as (k & ->).
  exists (S n + k). now rewrite skipn_skipn, Nat.add_comm.
Qed.

Lemma string_of_list_ascii_app (l1 l2 : list ascii) :
  string_of_list_ascii (l1 ++ l2)
  = (string_of_list_ascii l1 ++ string_of_list_ascii l2)%string.
Proof. induction l1 as [|c l1 IH]; cbn; [reflexivity | now rewrite IH]. Qed.

Lemma trimEnd_prefix (s : string) : exists removed, s = (trimEnd s ++ removed)%string.
Proof.
  unfold trimEnd.
  destruct (trimEndFuel_skipn (List.length (rev (list_ascii_of_string s)))
              (rev (list_ascii_of_string s))) as (k & ->).
  exists (string_of_list_ascii (rev (firstn k (rev (list_ascii_of_string s))))).
  rewrite <- string_of_list_ascii_app, <- rev_app_distr, firstn_skipn, rev_involutive.
  now rewrite string_of_list_ascii_of_string.
Qed.

Lemma trim_no_leading_white_space (s : string) : whiteSpaceAt (trim s) = 0.
Proof.
  unfold trim. destruct (trimEnd_prefix (trimStart s)) as (removed & E).
  apply (whiteSpaceAt_prefix _ removed). rewrite <- E. apply trimStart_done.
Qed.

Lemma trim_no_trailing_white_space (s : string) :
  whiteSpaceAtEnd (rev (list_ascii_of_string (trim s))) = 0.
Proof.
  unfold trim, trimEnd.
  rewrite list_ascii_of_string_of_list_ascii, rev_involutive.
  apply trimEndFuel_done. lia.
Qed.

(** X15.  Submitting a custom pose selects something exactly when no
    generation is in progress and the typed text is not blank; what is
    selected is then the typed text trimmed, which is not empty and has no
    white space at either end, and the input is cleared and the menu
    closed.  Otherwise nothing is selected and the state is kept. *)
Theorem custom_pose_is_trimmed_and_not_blank :
  forall isLoading st,
    let typed := trim (customPoseInput st) in
    (isLoading = false /\ typed <> EmptyString ->
     fst (handleCustomPoseSubmit isLoading st) = OnSelectPose (Some typed) /\
     customPoseInput (snd (handleCustomPoseSubmit isLoading st)) = EmptyString /\
     isPoseMenuOpen (snd (handleCustomPoseSubmit isLoading st)) = false) /\
    (~ (isLoading = false /\ typed <> EmptyString) ->
     handleCustomPoseSubmit isLoading st = (NotCalled, st)) /\
    (forall selected,
       fst (handleCustomPoseSubmit isLoading st) = OnSelectPose selected ->
       selected = Some typed /\ typed <> EmptyString /\
       whiteSpaceAt typed = 0 /\
       whiteSpaceAtEnd (rev (list_ascii_of_string typed)) = 0).
Proof.
  intros isLoading st typed. unfold handleCustomPoseSubmit. fold typed.
  destruct isLoading; cbn [orb].
  - split; [intros [H _]; discriminate H|].
    split; [reflexivity | intros selected H; discriminate H].
  - destruct (truthy typed) eqn:Et; cbn [negb fst snd].
    + assert (Hne : typed <> EmptyString) by now apply truthy_nonempty.
      split; [auto|]. split; [tauto|].
      intros selected [= <-]. repeat split.
      * exact Hne.
      * apply trim_no_leading_white_space.
      * apply trim_no_trailing_white_space.
    + assert (He : ~ typed <> EmptyString).
      { intros H. apply truthy_nonempty in H. congruence. }
      split; [tauto|]. split; [reflexivity | intros selected H; discriminate H].
Qed.

End CustomPose.

(** ** More on pose navigation *)

Section PoseNavigationFurther.
Import Canvas.
Local Open Scope Z_scope.

Lemma indexOf_absent (arr : list string) (v : string) :
  ~ In v arr -> indexOf arr v = -1.
Proof.
  intros H. unfold indexOf.
  destruct (indexOfFrom_spec 0 arr v) as [[E _] | [_ Hn]]; [lia | exact E |].
  exfalso. apply H. eapply nth_error_In, Hn.
Qed.

Lemma indexOf_NoDup (arr : list string) (v : string) (i : nat) :
  NoDup arr -> nth_error arr i = Some v -> indexOf arr v = Z.of_nat i.
Proof.
  intros Hnd Hi. unfold indexOf.
  destruct (indexOfFrom_spec 0 arr v) as [[_ Hnot] | [Hb Hn]]; [lia | |].
  - exfalso. apply Hnot. eapply nth_error_In, Hi.
  - rewrite Z.sub_0_r in Hn.
    assert (Hlt : (i < List.length arr)%nat) by (apply nth_error_Some; congruence).
    rewrite NoDup_nth_error in Hnd.
    assert (E : i = Z.to_nat (indexOfFrom 0 arr v))
      by (apply Hnd; [exact Hlt | congruence]).
    lia.
Qed.

Lemma item_of_nat (arr : list string) (i : nat) :
  item arr (Z.of_nat i) = nth_error arr i.
Proof.
  unfold item. destruct (Z.ltb_spec (Z.of_nat i) 0); [lia|].
  now rewrite Nat2Z.id.
Qed.

Lemma nth_error_last (arr : list string) (d : string) :
  arr <> [] -> nth_error arr (List.length arr - 1) = Some (last arr d).
Proof.
  intros H. destruct (exists_last H) as (front & z & ->).
  rewrite last_last, length_app. cbn [List.length].
  replace (List.length front + 1 - 1)%nat with (List.length front) by lia.
  rewrite nth_error_app2 by lia. now rewrite Nat.sub_diag.
Qed.

(** X16.  Over any non-empty list of poses, from a free text that is not
    in the list, next selects the first pose of the list and previous
    selects its last pose. *)
Theorem free_text_jumps_to_the_ends :
  forall first others free,
    ~ In free (first :: others) ->
    handleNextPose false (first :: others) free = OnSelectPose (Some first) /\
    handlePreviousPose false (first :: others) free
      = OnSelectPose (Some (last (first :: others) first)).
Proof.
  intros first others free H.
  unfold handleNextPose, handlePreviousPose.
  rewrite (indexOf_absent _ _ H). cbn [Z.eqb Pos.eqb]. split; [reflexivity|].
  f_equal. unfold lengthOf.
  replace (Z.of_nat (List.length (first :: others)) - 1)
    with (Z.of_nat (List.length (first :: others) - 1)) by (cbn [List.length]; lia).
  rewrite item_of_nat. apply nth_error_last. discriminate.
Qed.

Lemma free_text_jumps_to_the_ends_witness :
  handleNextPose false ["Face"; "Profil"; "Dos"; "Assis"]%string "En sautant"
    = OnSelectPose (Some "Face"%string) /\
  handlePreviousPose false ["Face"; "Profil"; "Dos"; "Assis"]%string "En sautant"
    = OnSelectPose (Some (last ["Face"; "Profil"; "Dos"; "Assis"]%string "Face"%string)).
Proof.
  apply (free_text_jumps_to_the_ends "Face" ["Profil"; "Dos"; "Assis"]%string
           "En sautant").
  cbn. intros [H | [H | [H | [H | []]]]]; discriminate H.
Defined.

Lemma next_of_index (arr : list string) (p : string) (i : nat) :
  NoDup arr -> nth_error arr i = Some p ->
  handleNextPose false arr p
  = OnSelectPose (nth_error arr (if (S i <? List.length arr)%nat then S i else 0%nat)).
Proof.
  intros Hnd Hi.
  assert (Hlt : (i < List.length arr)%nat) by (apply nth_error_Some; congruence).
  unfold handleNextPose. rewrite (indexOf_NoDup _ _ _ Hnd Hi).
  destruct (Z.eqb_spec (Z.of_nat i) (-1)); [lia|]. f_equal. unfold lengthOf.
  destruct (Nat.ltb_spec (S i) (List.length arr)).
  - rewrite Z.rem_small by lia. rewrite <- (item_of_nat arr (S i)). f_equal. lia.
  - replace (Z.of_nat i + 1) with (Z.of_nat (List.length arr)) by lia.
    rewrite Z.rem_same by lia. apply (item_of_nat arr 0).
Qed.

Lemma previous_of_index (arr : list string) (p : string) (i : nat) :
  NoDup arr -> nth_error arr i = Some p ->
  handlePreviousPose false arr p
  = OnSelectPose (nth_error arr (match i with
                                 | O => List.length arr - 1
                                 | S j => j
                                 end)%nat).
Proof.
  intros Hnd Hi.
  assert (Hlt : (i < List.length arr)%nat) by (apply nth_error_Some; congruence).
  unfold handlePreviousPose. rewrite (indexOf_NoDup _ _ _ Hnd Hi).
  destruct (Z.eqb_spec (Z.of_nat i) (-1)); [lia|]. f_equal. unfold lengthOf.
  destruct i as [|j].
  - replace (Z.of_nat 0 - 1 + Z.of_nat (List.length arr))
      with (Z.of_nat (List.length arr - 1)) by lia.
    rewrite Z.rem_small by lia. apply item_of_nat.
  - replace (Z.of_nat (S j) - 1 + Z.of_nat (List.length arr))
      with (Z.of_nat j + 1 * Z.of_nat (List.length arr)) by lia.
    rewrite Z.rem_mod_nonneg by lia. rewrite Z.mod_add by lia.
    rewrite Z.mod_small by lia. apply item_of_nat.
Qed.

(** X17.  Over a list of poses without repetition, next and previous
    undo each other on listed poses: the pose that next selects from [p]
    is one from which previous selects [p], and the other way round. *)
Theorem next_and_previous_undo_each_other :
  forall poseInstructions p,
    NoDup poseInstructions ->
    In p poseInstructions ->
    (exists q, handleNextPose false poseInstructions p = OnSelectPose (Some q) /\
               handlePreviousPose false poseInstructions q = OnSelectPose (Some p)) /\
    (exists q, handlePreviousPose false poseInstructions p = OnSelectPose (Some q) /\
               handleNextPose false poseInstructions q = OnSelectPose (Some p)).
Proof.
  intros arr p Hnd Hin. apply In_nth_error in Hin as (i & Hi).
  assert (Hlt : (i < List.length arr)%nat) by (apply nth_error_Some; congruence).
  split.
  - rewrite (next_of_index _ _ _ Hnd Hi).
    destruct (Nat.ltb_spec (S i) (List.length arr)) as [Hs | Hs].
    + destruct (nth_error arr (S i)) as [q|] eqn:Eq;
        [|apply nth_error_None in Eq; lia].
      exists q. split; [reflexivity|].
      rewrite (previous_of_index _ _ _ Hnd Eq). now rewrite Hi.
    + destruct (nth_error arr 0) as [q|] eqn:Eq;
        [|apply nth_error_None in Eq; lia].
      exists q. split; [reflexivity|].
      rewrite (previous_of_index _ _ _ Hnd Eq).
      replace (List.length arr - 1)%nat with i by lia. now rewrite Hi.
  - rewrite (previous_of_index _ _ _ Hnd Hi). destruct i as [|j].
    + destruct (nth_error arr (List.length arr - 1)) as [q|] eqn:Eq;
        [|apply nth_error_None in Eq; lia].
      exists q. split; [reflexivity|].
      rewrite (next_of_index _ _ _ Hnd Eq).
      destruct (Nat.ltb_spec (S (List.length arr - 1)) (List.length arr)); [lia|].
      now rewrite Hi.
    + destruct (nth_error arr j) as [q|] eqn:Eq;
        [|apply nth_error_None in Eq; lia].
      exists q. split; [reflexivity|].
      rewrite (next_of_index _ _ _ Hnd Eq).
      destruct (Nat.ltb_spec (S j) (List.length arr)); [|lia]. now rewrite Hi.
Qed.

Lemma next_and_previous_undo_each_other_witness :
  (exists q, handleNextPose false ["Face"; "Profil"; "Dos"]%string "Dos"
             = OnSelectPose (Some q) /\
             handlePreviousPose false ["Face"; "Profil"; "Dos"]%string q
             = OnSelectPose (Some "Dos"%string)) /\
  (exists q, handlePreviousPose false ["Face"; "Profil"; "Dos"]%string "Dos"
             = OnSelectPose (Some q) /\
             handleNextPose false ["Face"; "Profil"; "Dos"]%string q
             = OnSelectPose (Some "Dos"%string)).
Proof.
  apply (next_and_previous_undo_each_other ["Face"; "Profil"; "Dos"]%string "Dos").
  - repeat constructor; cbn; intros H; repeat destruct H as [H | H];
      try discriminate H; exact H.
  - cbn. auto.
Defined.

(** X18.  Navigation is cyclic: over a non-empty list, previous from the
    first pose selects the last pose; when the list has no repetition,
    next from the last pose selects the first. *)
Theorem navigation_wraps_around :
  forall first others,
    let poseInstructions := (first :: others)%list in
    handlePreviousPose false poseInstructions first
      = OnSelectPose (Some (last poseInstructions first)) /\
    (NoDup poseInstructions ->
     handleNextPose false poseInstructions (last poseInstructions first)
       = OnSelectPose (Some first)).
Proof.
  intros first others arr.
  assert (Hlast : nth_error arr (List.length arr - 1) = Some (last arr first))
    by (apply nth_error_last; discriminate).
  split.
  - unfold handlePreviousPose, indexOf. subst arr. cbn [indexOfFrom].
    rewrite String.eqb_refl. cbn [Z.eqb]. f_equal. unfold lengthOf.
    replace (0 - 1 + Z.of_nat (List.length (first :: others)))
      with (Z.of_nat (List.length (first :: others) - 1)) by (cbn [List.length]; lia).
    rewrite Z.rem_small by (cbn [List.length]; lia).
    rewrite item_of_nat. exact Hlast.
  - intros Hnd. rewrite (next_of_index _ _ _ Hnd Hlast).
    destruct (Nat.ltb_spec (S (List.length arr - 1)) (List.length arr)) as [H | H].
    + subst arr. cbn [List.length] in H. lia.
    + reflexivity.
Qed.

End PoseNavigationFurther.

(** ** Failing inputs of the other two operations *)

Section FailingInputs.
Import JS GeminiService.

(** X19.  Creating the model sends a request exactly when the photo is
    read as a data URL that decodes, and a pose variation exactly when
    the current image decodes; otherwise the promise is rejected with the
    error of the reader or of the decoder and nothing is sent. *)
Theorem requests_need_decodable_inputs :
  forall (w : World),
    (forall userImage,
       (requestsOf w (generateModelImage userImage) <> [] <->
        exists url image,
          fileReader w userImage = Return url /\ dataUrlToParts url = Return image) /\
       (forall e, fileReader w userImage = Throw e ->
                  settlement w (generateModelImage userImage) = Throw e) /\
       (forall url e, fileReader w userImage = Return url ->
                      dataUrlToParts url = Throw e ->
                      settlement w (generateModelImage userImage) = Throw e)) /\
    (forall tryOnImageUrl poseInstruction,
       (requestsOf w (generatePoseVariation tryOnImageUrl poseInstruction) <> [] <->
        exists image, dataUrlToParts tryOnImageUrl = Return image) /\
       (forall e, dataUrlToParts tryOnImageUrl = Throw e ->
                  settlement w (generatePoseVariation tryOnImageUrl poseInstruction)
                  = Throw e)).
Proof.
  intros w. split.
  - intros userImage.
    unfold generateModelImage, fileToPart, requestsOf, settlement.
    cbn [andThen run]. destruct (fileReader w userImage) as [url|e0].
    + cbn [andThen run]. destruct (dataUrlToParts url) as [image|e1] eqn:Ed;
        cbn [bind andThen run fst snd].
      * rewrite run_generate_full. cbn [fst]. repeat split; try discriminate.
        -- intros _. exists url, image. auto.
        -- intros url' e [= <-] H. congruence.
      * repeat split; try discriminate.
        -- intros H. now elim H.
        -- intros (url' & image & [= <-] & H). congruence.
        -- intros url' e [= <-] H. congruence.
    + cbn [fst snd]. repeat split; try discriminate.
      * intros H. now elim H.
      * intros (url' & image & H & _). discriminate H.
      * intros e [= <-]. reflexivity.
  - intros url pose.
    unfold generatePoseVariation, dataUrlToPart, requestsOf, settlement.
    destruct (dataUrlToParts url) as [image|e0]; cbn [bind andThen run fst snd].
    + rewrite run_generate_full. cbn [fst]. repeat split; try discriminate.
      intros _. eauto.
    + repeat split.
      * intros H. now elim H.
      * intros (image & H). discriminate H.
      * intros e [= <-]. reflexivity.
Qed.

End FailingInputs.
